(** * Map and set shims of [src/compiler/collections.ts]

    A shallow embedding of the TypeScript compiler's [collections.ts]
    (namespace [ts]) together with the fragment of the JavaScript runtime it
    runs on, and the properties of the containers proved over it.

    Conventions of the embedding:
    - a property key is a [string]; a numeric key is represented by the
      property name it is stored under;
    - a number value is [NaN], an infinity or a finite double whose value is
      an integer; [parseInt] and the difference of two numbers round to the
      nearest double, and [===] is [false] on [NaN];
    - a record ([MapLike<T>], any plain object) is its prototype together with
      its own enumerable properties in creation order;
    - a map or record handed to a comparison, and an array held by a map, is
      a reference into a store, so that [===] on objects is identity and a
      change of an array is seen wherever the array is held;
    - a closure that updates captured locals becomes a state-passing function;
      an application of a caller-supplied callback is recorded in a log where a
      property speaks about how often the callback runs. *)

From Stdlib Require Import List String Ascii ZArith Bool Lia Permutation Sorted.
Import ListNotations.
Local Open Scope string_scope.
Local Open Scope list_scope.

Set Implicit Arguments.

(** ** The JavaScript runtime fragment *)

Module JS.

(** *** Numbers *)

(** A number value is an IEEE 754 double.  The model holds the doubles the
    code meets in its own arithmetic, which is the difference of two results
    of [parseInt]: [NaN], the two infinities, and the finite doubles whose
    value is an integer, each given by that integer.  The two zeros are one
    value: neither [===] nor the sign of a difference tells them apart. *)
Inductive Number : Type :=
| NaN
| Infinity (negative : bool)
| Finite (n : Z).

Definition Number_eq_dec (a b : Number) : {a = b} + {a <> b}.
Proof. decide equality; [ apply Bool.bool_dec | apply Z.eq_dec ]. Defined.

(** A double has 53 significant binary digits, and its magnitude is below
    [2 ^ 1024]. *)
Definition overflowThreshold : Z := (2 ^ 1024)%Z.

(** The natural with at most 53 significant binary digits nearest to the
    natural [n]; of two equally near ones, the one with the even
    mantissa. *)
Definition roundMagnitude (n : Z) : Z :=
  let excess := (Z.log2 n + 1 - 53)%Z in
  if (excess <=? 0)%Z then n
  else
    let unit := (2 ^ excess)%Z in
    let mantissa := (n / unit)%Z in
    let rest := (n mod unit)%Z in
    let up :=
      if (2 * rest <? unit)%Z then false
      else if (unit <? 2 * rest)%Z then true
      else Z.odd mantissa in
    ((if up then mantissa + 1 else mantissa) * unit)%Z.

(** The number value for the integer [n]: the nearest double, and an
    infinity when that is beyond the largest double. *)
Definition Number_ofInteger (n : Z) : Number :=
  let magnitude := roundMagnitude (Z.abs n) in
  if (overflowThreshold <=? magnitude)%Z then Infinity (n <? 0)%Z
  else Finite (Z.sgn n * magnitude)%Z.

(** [a - b]: the exact difference, rounded. *)
Definition Number_sub (a b : Number) : Number :=
  match a, b with
  | NaN, _ | _, NaN => NaN
  | Infinity s, Infinity t => if Bool.eqb s t then NaN else Infinity s
  | Infinity s, Finite _ => Infinity s
  | Finite _, Infinity t => Infinity (negb t)
  | Finite x, Finite y => Number_ofInteger (x - y)
  end.

(** [a < b]; [false] when either is [NaN]. *)
Definition Number_ltb (a b : Number) : bool :=
  match a, b with
  | NaN, _ | _, NaN => false
  | Infinity s, Infinity t => s && negb t
  | Infinity s, Finite _ => s
  | Finite _, Infinity t => negb t
  | Finite x, Finite y => (x <? y)%Z
  end.


(** [a === b] on numbers: [NaN] is not [===] to itself. *)
Definition Number_strictEq (a b : Number) : bool :=
  match a, b with
  | Infinity s, Infinity t => Bool.eqb s t
  | Finite x, Finite y => (x =? y)%Z
  | _, _ => false
  end.

(** *** Values *)

(** Object references: two objects are [===] exactly when they are the same
    reference. *)
Definition Ref := nat.

Inductive Value : Type :=
| VUndefined
| VNull
| VBool (b : bool)
| VNum (n : Number)
| VStr (s : string)
| VObj (r : Ref).

Definition Value_eq_dec (a b : Value) : {a = b} + {a <> b}.
Proof.
  decide equality;
    [ apply Bool.bool_dec | apply Number_eq_dec | apply string_dec | apply Nat.eq_dec ].
Defined.

(** A type of values with a distinguished [undefined], tested by
    [v === undefined]. *)
Class HasUndefined (T : Type) : Type := {
  undefined : T;
  isUndefined : T -> bool;
  isUndefined_spec : forall v, isUndefined v = true <-> v = undefined
}.

(** [a === b].  Two values that are [===] are the same value, and
    [v === undefined] is the test of [HasUndefined]; a value need not be
    [===] to itself, as [NaN] is not. *)
Class StrictEq (T : Type) `{HasUndefined T} : Type := {
  strictEq : T -> T -> bool;
  strictEq_eq : forall a b, strictEq a b = true -> a = b;
  strictEq_undefined : forall a, strictEq a undefined = isUndefined a
}.

Arguments StrictEq T {_}.

Definition Value_isUndefined (v : Value) : bool :=
  match v with VUndefined => true | _ => false end.

Definition Value_strictEq (a b : Value) : bool :=
  match a, b with
  | VNum x, VNum y => Number_strictEq x y
  | _, _ => if Value_eq_dec a b then true else false
  end.

(** *** Handles: a variable that holds an object, [null] or [undefined] *)

Inductive Handle : Type :=
| HUndefined
| HNull
| HRef (r : Ref).

(** [left === right] on handles. *)
Definition Handle_strictEq (a b : Handle) : bool :=
  match a, b with
  | HUndefined, HUndefined => true
  | HNull, HNull => true
  | HRef r, HRef s => Nat.eqb r s
  | _, _ => false
  end.


(** The store the references point into. *)
Definition Heap (A : Type) := Ref -> A.

(** *** Property lists *)

Section Properties.
Context {T : Type}.

Fixpoint lookup (k : string) (ps : list (string * T)) : option T :=
  match ps with
  | [] => None
  | (k', v) :: rest => if k =? k' then Some v else lookup k rest
  end.

(** Assignment to a property: an existing property keeps its place, a new one
    is created last. *)
Fixpoint update (k : string) (v : T) (ps : list (string * T)) : list (string * T) :=
  match ps with
  | [] => [(k, v)]
  | (k', v') :: rest =>
      if k =? k' then (k, v) :: rest else (k', v') :: update k v rest
  end.

Fixpoint remove (k : string) (ps : list (string * T)) : list (string * T) :=
  match ps with
  | [] => []
  | (k', v') :: rest =>
      if k =? k' then remove k rest else (k', v') :: remove k rest
  end.

Definition defined (k : string) (ps : list (string * T)) : bool :=
  match lookup k ps with Some _ => true | None => false end.

(** No key occurs twice. *)
Fixpoint uniqueKeys (ps : list (string * T)) : bool :=
  match ps with
  | [] => true
  | (k, _) :: rest => negb (defined k rest) && uniqueKeys rest
  end.

End Properties.

(** *** Ordinary objects *)

(** [proto] is [None] for an object without prototype ([Object.create(null)])
    and otherwise holds the properties the object inherits, none of which is
    enumerable (the case of [Object.prototype]). *)
Record Object (T : Type) : Type := mkObject {
  proto : option (list (string * T));
  props : list (string * T)
}.

Section Objects.
Context {T : Type} `{HasUndefined T}.

(** [Object.create(null)]. *)
Definition Object_create_null : Object T :=
  {| proto := None; props := [] |}.

(** [hasOwnProperty.call(o, k)]. *)
Definition hasOwnProperty (o : Object T) (k : string) : bool :=
  defined k (props o).

Definition inherits (o : Object T) (k : string) : bool :=
  match proto o with
  | Some ps => defined k ps
  | None => false
  end.

(** [k in o]: own or inherited. *)
Definition has_in (k : string) (o : Object T) : bool :=
  hasOwnProperty o k || inherits o k.

(** [o[k]]. *)
Definition getProp (o : Object T) (k : string) : T :=
  match lookup k (props o) with
  | Some v => v
  | None =>
      match proto o with
      | Some ps => match lookup k ps with Some v => v | None => undefined end
      | None => undefined
      end
  end.

(** [o[k] = v], for a key that is not an inherited accessor. *)
Definition setProp (o : Object T) (k : string) (v : T) : Object T :=
  {| proto := proto o; props := update k v (props o) |}.

(** [delete o[k]]. *)
Definition deleteProp (o : Object T) (k : string) : Object T :=
  {| proto := proto o; props := remove k (props o) |}.

End Objects.

(** [Object.prototype]: what an object literal inherits. *)
Definition Object_prototype : list (string * Value) :=
  [ ("constructor", VObj 1); ("hasOwnProperty", VObj 2);
    ("isPrototypeOf", VObj 3); ("propertyIsEnumerable", VObj 4);
    ("toLocaleString", VObj 5); ("toString", VObj 6); ("valueOf", VObj 7) ].

(** The object literal [{ k1: v1, ... }]. *)
Definition literal (ps : list (string * Value)) : Object Value :=
  {| proto := Some Object_prototype;
     props := fold_left (fun acc kv => update (fst kv) (snd kv) acc) ps [] |}.

(** The store that holds [a] at reference 0 and [b] at every other one. *)
Definition twoObjects {A : Type} (a b : A) : Heap A :=
  fun r => match r with O => a | S _ => b end.

(** [heap[h]] when [h] is an object; [None] when [!h]. *)
Definition deref {A : Type} (heap : Heap A) (h : Handle) : option A :=
  match h with
  | HRef r => Some (heap r)
  | HUndefined | HNull => None
  end.

(** *** Regular expressions *)

(** The fragment of the pattern language the code uses.  [RNever] matches
    nothing and appears only as a derivative. *)
Inductive RegExp : Type :=
| RNever
| REmpty
| RChar (c : ascii)
| RRange (lo hi : ascii)
| RAlt (a b : RegExp)
| RSeq (a b : RegExp)
| RStar (a : RegExp).

(** [\d]. *)
Definition RDigit : RegExp := RRange "0" "9".

Definition inRange (lo hi c : ascii) : bool :=
  (nat_of_ascii lo <=? nat_of_ascii c)%nat && (nat_of_ascii c <=? nat_of_ascii hi)%nat.


Fixpoint nullable (r : RegExp) : bool :=
  match r with
  | RNever => false
  | REmpty => true
  | RChar _ => false
  | RRange _ _ => false
  | RAlt a b => nullable a || nullable b
  | RSeq a b => nullable a && nullable b
  | RStar _ => true
  end.

Fixpoint derivative (c : ascii) (r : RegExp) : RegExp :=
  match r with
  | RNever => RNever
  | REmpty => RNever
  | RChar d => if Ascii.eqb c d then REmpty else RNever
  | RRange lo hi => if inRange lo hi c then REmpty else RNever
  | RAlt a b => RAlt (derivative c a) (derivative c b)
  | RSeq a b =>
      if nullable a
      then RAlt (RSeq (derivative c a) b) (derivative c b)
      else RSeq (derivative c a) b
  | RStar a => RSeq (derivative c a) (RStar a)
  end.

Fixpoint matchAll (r : RegExp) (w : list ascii) : bool :=
  match w with
  | [] => nullable r
  | c :: w' => matchAll (derivative c r) w'
  end.

(** [/^r$/.test(s)]: with both anchors the whole of [s] has to match. *)
Definition RegExp_test_anchored (r : RegExp) (s : string) : bool :=
  matchAll r (list_ascii_of_string s).

(** *** [parseInt(s, 10)] *)

(** The digits are read as an integer, and the result is the number value
    for it: the nearest double.  Every digit counts, as in V8; the language
    lets an implementation read the digits after the twentieth as zeros,
    which matters only beyond [2 ^ 53]. *)

Definition isDigit (c : ascii) : bool := inRange "0" "9" c.

Definition digitValue (c : ascii) : Z :=
  Z.of_nat (nat_of_ascii c - nat_of_ascii "0").

Definition isWhiteSpace (c : ascii) : bool :=
  let n := nat_of_ascii c in
  (n =? 32)%nat || ((9 <=? n)%nat && (n <=? 13)%nat).

Fixpoint skipWhiteSpace (s : string) : string :=
  match s with
  | String c rest => if isWhiteSpace c then skipWhiteSpace rest else s
  | EmptyString => s
  end.

(** The value of the longest prefix of decimal digits. *)
Fixpoint digitsValue (acc : Z) (s : string) : Z :=
  match s with
  | String c rest =>
      if isDigit c then digitsValue (10 * acc + digitValue c)%Z rest else acc
  | EmptyString => acc
  end.

Definition parseInt_10 (s : string) : Number :=
  let s := skipWhiteSpace s in
  let (sign, s) :=
    match s with
    | String "-" rest => ((-1)%Z, rest)
    | String "+" rest => (1%Z, rest)
    | _ => (1%Z, s)
    end in
  match s with
  | String c _ => if isDigit c then Number_ofInteger (sign * digitsValue 0 s) else NaN
  | EmptyString => NaN
  end.

(** *** [Array.prototype.sort(comparefn)] *)

(** [comparefn(a, b) > 0]: a comparator result that is [NaN] counts as
    zero. *)
Definition comesAfter {A : Type} (comparefn : A -> A -> Number) (a b : A) : bool :=
  Number_ltb (Finite 0) (comparefn a b).

Fixpoint insertSorted {A : Type} (comparefn : A -> A -> Number) (x : A) (l : list A) : list A :=
  match l with
  | [] => [x]
  | y :: rest =>
      if comesAfter comparefn x y then y :: insertSorted comparefn x rest
      else x :: y :: rest
  end.

(** The sort is the host's; it is modelled by a stable insertion sort. *)
Definition Array_sort {A : Type} (comparefn : A -> A -> Number) (l : list A) : list A :=
  fold_right (insertSorted comparefn) [] l.

(** *** The host *)

(** What the code asks of the runtime it is loaded in: whether a global [Map]
    exists, whether [Map.prototype] has [keys], [values] and [entries],
    whether a global [Set] exists, and the order in which [for-in] visits the
    own enumerable keys of an object (given in creation order).  Whatever the
    order, each key is visited once. *)
Class Host : Type := {
  hasMap : bool;
  hasMapIterators : bool;
  hasSet : bool;
  forInOrder : list string -> list string;
  forInOrder_Permutation : forall ks, Permutation (forInOrder ks) ks
}.

(** The keys [for (const key in o)] visits: inherited properties are not
    enumerable. *)
Definition forIn {host : Host} {T : Type} (o : Object T) : list string :=
  forInOrder (map fst (props o)).

End JS.

#[export] Instance Value_HasUndefined : JS.HasUndefined JS.Value.
Proof.
  refine {| JS.undefined := JS.VUndefined; JS.isUndefined := JS.Value_isUndefined |}.
  intros v; destruct v; simpl; split; congruence.
Defined.

Lemma Number_strictEq_eq (x y : JS.Number) : JS.Number_strictEq x y = true -> x = y.
Proof.
  destruct x as [|s|x], y as [|t|y]; simpl; try discriminate.
  - intros E. now apply Bool.eqb_prop in E as ->.
  - intros E. now apply Z.eqb_eq in E as ->.
Qed.

#[export] Instance Value_StrictEq : JS.StrictEq JS.Value.
Proof.
  refine {| JS.strictEq := JS.Value_strictEq |}.
  - intros a b. destruct a, b; simpl; try discriminate; try reflexivity;
      try (intros E; apply Number_strictEq_eq in E; congruence);
      unfold JS.Value_strictEq;
      match goal with
      | |- (if ?d then _ else _) = true -> _ => destruct d; congruence
      end.
  - intros a. destruct a; reflexivity.
Defined.

(** ** [namespace ts] *)

Module ts.
Import JS.

(** [MapLike<T>]: a record with string keys. *)
Definition MapLike (T : Type) : Type := Object T.

Section HostConstants.
Context {host : Host}.

(** [typeof Map !== "undefined"]. *)
Definition usingNativeMaps : bool := hasMap.

(** [usingNativeMaps && "keys" in Map.prototype && "values" in Map.prototype
    && "entries" in Map.prototype]. *)
Definition usingES6NativeMaps : bool := usingNativeMaps && hasMapIterators.

(** [typeof Set !== "undefined"]. *)
Definition usingNativeSets : bool := hasSet.

End HostConstants.

(** *** [createDictionaryModeObject] *)

Definition createDictionaryModeObject {T : Type} `{HasUndefined T} : MapLike T :=
  let map := Object_create_null in
  let map := setProp map "__" undefined in
  let map := deleteProp map "__" in
  map.

(** *** [class ShimMap] *)

Record ShimMap (T : Type) : Type := mkShimMap { data : MapLike T }.

Section ShimMapMethods.
Context {host : Host} {T : Type} `{HasUndefined T}.

Definition ShimMap_new : ShimMap T :=
  {| data := createDictionaryModeObject |}.

Definition ShimMap_clear (this : ShimMap T) : ShimMap T :=
  {| data := createDictionaryModeObject |}.

Definition ShimMap_has (this : ShimMap T) (key : string) : bool :=
  has_in key (data this).

Definition ShimMap_delete (this : ShimMap T) (key : string) : bool * ShimMap T :=
  let had := ShimMap_has this key in
  if had then (had, {| data := deleteProp (data this) key |})
  else (had, this).

Definition ShimMap_get (this : ShimMap T) (key : string) : T :=
  getProp (data this) key.

Definition ShimMap_set (this : ShimMap T) (key : string) (value : T) : ShimMap T :=
  {| data := setProp (data this) key value |}.

(** [for (const key in this.data) action(this.data[key], key)]; the state [S]
    stands for the locals the callback updates. *)
Definition ShimMap_forEach {S : Type} (this : ShimMap T)
    (action : T -> string -> S -> S) (s : S) : S :=
  fold_left (fun s key => action (getProp (data this) key) key s)
            (forIn (data this)) s.

End ShimMapMethods.

(** *** The host's [Map]

    The global [Map] is not part of the namespace; it is modelled after its
    contract: the entries in insertion order, an assigned key keeping its
    place. *)

Record NativeMap (T : Type) : Type := mkNativeMap { mapData : list (string * T) }.

Section NativeMapMethods.
Context {T : Type} `{HasUndefined T}.

Definition NativeMap_new : NativeMap T := {| mapData := [] |}.

Definition NativeMap_clear (this : NativeMap T) : NativeMap T :=
  {| mapData := [] |}.

Definition NativeMap_has (this : NativeMap T) (key : string) : bool :=
  defined key (mapData this).

Definition NativeMap_delete (this : NativeMap T) (key : string) : bool * NativeMap T :=
  (NativeMap_has this key, {| mapData := remove key (mapData this) |}).

Definition NativeMap_get (this : NativeMap T) (key : string) : T :=
  match lookup key (mapData this) with Some v => v | None => undefined end.

Definition NativeMap_set (this : NativeMap T) (key : string) (value : T) : NativeMap T :=
  {| mapData := update key value (mapData this) |}.

Definition NativeMap_forEach {S : Type} (this : NativeMap T)
    (action : T -> string -> S -> S) (s : S) : S :=
  fold_left (fun s kv => action (snd kv) (fst kv) s) (mapData this) s.

End NativeMapMethods.

(** Simplified ES6 [Iterator]: the items still to be produced.  [next()]
    yields the head and leaves the tail, and reports [done] on [[]]. *)
Definition Iterator (A : Type) : Type := list A.

Definition NativeMap_entries {T : Type} (this : NativeMap T) : Iterator (string * T) :=
  mapData this.

Definition NativeMap_keys {T : Type} (this : NativeMap T) : Iterator string :=
  map fst (mapData this).

(** *** [interface Map<K, V>] and [createMap] *)

(** A map is an instance of one of the two classes; a method call dispatches
    on the instance. *)
Inductive Map (T : Type) : Type :=
| Native (m : NativeMap T)
| Shim (m : ShimMap T).

Arguments Native {T} m.
Arguments Shim {T} m.

Section MapInterface.
Context {host : Host} {T : Type} `{HasUndefined T}.

Definition Map_clear (map : Map T) : Map T :=
  match map with
  | Native m => Native (NativeMap_clear m)
  | Shim m => Shim (ShimMap_clear m)
  end.

Definition Map_delete (map : Map T) (key : string) : bool * Map T :=
  match map with
  | Native m => let (had, m') := NativeMap_delete m key in (had, Native m')
  | Shim m => let (had, m') := ShimMap_delete m key in (had, Shim m')
  end.

Definition Map_get (map : Map T) (key : string) : T :=
  match map with
  | Native m => NativeMap_get m key
  | Shim m => ShimMap_get m key
  end.

Definition Map_has (map : Map T) (key : string) : bool :=
  match map with
  | Native m => NativeMap_has m key
  | Shim m => ShimMap_has m key
  end.

Definition Map_set (map : Map T) (key : string) (value : T) : Map T :=
  match map with
  | Native m => Native (NativeMap_set m key value)
  | Shim m => Shim (ShimMap_set m key value)
  end.

Definition Map_forEach {S : Type} (map : Map T)
    (action : T -> string -> S -> S) (s : S) : S :=
  match map with
  | Native m => NativeMap_forEach m action s
  | Shim m => ShimMap_forEach m action s
  end.

(** [new MapCtr()], with [MapCtr = usingNativeMaps ? Map : ShimMap]. *)
Definition MapCtr_new : Map T :=
  if usingNativeMaps then Native NativeMap_new else Shim ShimMap_new.

Definition createMap (pairs : option (list (string * T))) : Map T :=
  let map := MapCtr_new in
  match pairs with
  | Some pairs => fold_left (fun map kv => Map_set map (fst kv) (snd kv)) pairs map
  | None => map
  end.

(** The cast of a [Map] to [ES6Map]: only the host's maps have the iterator
    methods, a call of one on a [ShimMap] is a [TypeError] ([None]). *)
Definition asES6Map (map : Map T) : option (NativeMap T) :=
  match map with
  | Native m => Some m
  | Shim _ => None
  end.

(** The entries a map holds, in the order they were created. *)
Definition entriesOf (map : Map T) : list (string * T) :=
  match map with
  | Native m => mapData m
  | Shim m => props (data m)
  end.

(** A map of this runtime: an instance of [MapCtr] whose keys are distinct;
    its record, if it has one, has no prototype, as
    [createDictionaryModeObject] made it. *)
Definition isHostMap (map : Map T) : bool :=
  match map with
  | Native m => usingNativeMaps && uniqueKeys (mapData m)
  | Shim m =>
      negb usingNativeMaps &&
      match proto (data m) with None => true | Some _ => false end &&
      uniqueKeys (props (data m))
  end.

(** The calls a client makes on a map. *)
Inductive MapCall : Type :=
| CallSet (key : string) (value : T)
| CallGet (key : string)
| CallHas (key : string)
| CallDelete (key : string)
| CallClear.

Definition call (map : Map T) (c : MapCall) : Map T :=
  match c with
  | CallSet key value => Map_set map key value
  | CallGet _ => map
  | CallHas _ => map
  | CallDelete key => snd (Map_delete map key)
  | CallClear => Map_clear map
  end.

Definition calls (map : Map T) (cs : list MapCall) : Map T :=
  fold_left call cs map.

End MapInterface.

(** *** Iteration and query primitives *)

Section Queries.
Context {host : Host} {T : Type} `{HasUndefined T}.

(** [findInMap], the branch taken when [usingES6NativeMaps]: the [while]
    loop over [map.entries()].  Besides the result it reports the entries
    [f] was applied to, in order. *)
Fixpoint findInMap_iterate {U : Type} `{HasUndefined U}
    (iter : Iterator (string * T)) (f : T -> string -> U) : U * list (T * string) :=
  match iter with
  | [] => (undefined, [])
  | (key, value) :: iter' =>
      let result := f value key in
      if negb (isUndefined result) then (result, [(value, key)])
      else
        let (later, applied) := findInMap_iterate iter' f in
        (later, (value, key) :: applied)
  end.

(** [findInMap], the other branch: [map.forEach] with the guard
    [if (result === undefined)] around the application of [f]. *)
Definition findInMap_forEach {U : Type} `{HasUndefined U}
    (map : Map T) (f : T -> string -> U) : U * list (T * string) :=
  Map_forEach map
    (fun value key st =>
       if isUndefined (fst st)
       then (f value key, snd st ++ [(value, key)])
       else st)
    (undefined, []).

Definition findInMap {U : Type} `{HasUndefined U}
    (map : Map T) (f : T -> string -> U) : option (U * list (T * string)) :=
  if usingES6NativeMaps
  then option_map (fun m => findInMap_iterate (NativeMap_entries m) f) (asES6Map map)
  else Some (findInMap_forEach map f).

Fixpoint someInIterator {A : Type} (iterator : Iterator A) (predicate : A -> bool) : bool :=
  match iterator with
  | [] => false
  | value :: rest => if predicate value then true else someInIterator rest predicate
  end.

Definition someInMap (map : Map T) (predicate : T -> string -> bool) : option bool :=
  if usingES6NativeMaps
  then option_map
         (fun m => someInIterator (NativeMap_entries m)
                     (fun pair => predicate (snd pair) (fst pair)))
         (asES6Map map)
  else Some (Map_forEach map (fun value key found => found || predicate value key) false).

Definition someKeyInMap (map : Map T) (predicate : string -> bool) : option bool :=
  if usingES6NativeMaps
  then option_map (fun m => someInIterator (NativeMap_keys m) predicate) (asES6Map map)
  else someInMap map (fun _value key => predicate key).

(** The entries in the order [forEach] visits them. *)
Definition iterationOrder (map : Map T) : list (string * T) :=
  Map_forEach map (fun value key acc => acc ++ [(key, value)]) [].

(** *** Conversions *)

Definition hasProperty (map : MapLike T) (key : string) : bool :=
  hasOwnProperty map key.

Definition mapLikeOfMap (map : Map T) : MapLike T :=
  let obj := createDictionaryModeObject in
  Map_forEach map (fun value key obj => setProp obj key value) obj.

Definition mapOfMapLike (object : MapLike T) : Map T :=
  let map := createMap None in
  fold_left
    (fun map key =>
       if hasProperty object key then Map_set map key (getProp object key) else map)
    (forIn object) map.

(** *** Map utilities *)

Definition setAndReturn (map : Map T) (key : string) (value : T) : T * Map T :=
  (value, Map_set map key value).

(** The third component lists the keys [getValue] was applied to. *)
Definition getOrUpdate (map : Map T) (key : string) (getValue : string -> T)
    : T * Map T * list string :=
  let value := Map_get map key in
  if negb (isUndefined value) then (value, map, [])
  else (setAndReturn map key (getValue key), [key]).

Definition getOrUpdateAndAllowUndefined (map : Map T) (key : string)
    (getValue : string -> T) : T * Map T * list string :=
  if Map_has map key then (Map_get map key, map, [])
  else (setAndReturn map key (getValue key), [key]).

Definition tryDelete (map : Map T) (key : string) : T * Map T :=
  let current := Map_get map key in
  if negb (isUndefined current) then (current, snd (Map_delete map key))
  else (undefined, map).

(** [valuesAreEqual ? valuesAreEqual(a, b) : a === b]. *)
Definition equalWith {SE : StrictEq T} (comparer : option (T -> T -> bool)) (a b : T) : bool :=
  match comparer with
  | Some valuesAreEqual => valuesAreEqual a b
  | None => strictEq a b
  end.

Definition mapsAreEqual {SE : StrictEq T} (heap : Heap (Map T)) (left right : Handle)
    (valuesAreEqual : option (T -> T -> bool)) : option bool :=
  if Handle_strictEq left right then Some true
  else
    match deref heap left, deref heap right with
    | Some leftMap, Some rightMap =>
        match
          someInMap leftMap
            (fun leftValue leftKey =>
               if negb (Map_has rightMap leftKey) then true
               else
                 let rightValue := Map_get rightMap leftKey in
                 negb (equalWith valuesAreEqual leftValue rightValue))
        with
        | None => None
        | Some someInLeftHasNoMatch =>
            if someInLeftHasNoMatch then Some false
            else
              match someKeyInMap rightMap (fun rightKey => negb (Map_has leftMap rightKey)) with
              | None => None
              | Some someInRightHasNoMatch => Some (negb someInRightHasNoMatch)
              end
        end
    | _, _ => Some false
    end.

(** *** MapLike utilities *)

(** Each [for-in] loop leaves through [return false] at the first key its
    body rejects.  In the first loop the test
    [!hasOwnProperty.call(right, key) === undefined] compares a boolean with
    [undefined]. *)
Definition equalOwnProperties {SE : StrictEq T} (heap : Heap (MapLike T)) (left right : Handle)
    (equalityComparer : option (T -> T -> bool)) : bool :=
  if Handle_strictEq left right then true
  else
    match deref heap left, deref heap right with
    | Some leftObj, Some rightObj =>
        if existsb
             (fun key =>
                hasOwnProperty leftObj key &&
                (Value_strictEq (VBool (negb (hasOwnProperty rightObj key))) VUndefined
                 || negb (equalWith equalityComparer (getProp leftObj key) (getProp rightObj key))))
             (forIn leftObj)
        then false
        else if existsb
                  (fun key => hasOwnProperty rightObj key && negb (hasOwnProperty leftObj key))
                  (forIn rightObj)
        then false
        else true
    | _, _ => false
    end.

End Queries.

(** *** Multi-maps *)

(** An array is an object: a [Map<K, V[]>] holds references, and [push] and
    [unorderedRemoveItem] change the array a reference points to, whichever
    key or variable holds the reference.  The store of the arrays gives the
    elements of every reference and the next reference an array literal
    gets. *)
Record Arrays (V : Type) : Type := mkArrays {
  nextArray : Ref;
  arrayAt : Heap (list V)
}.

(** [V[] | undefined]: what [get] returns on a [Map<K, V[]>].  An array is
    truthy, [undefined] is not. *)
#[export] Instance ArrayOrUndefined : HasUndefined (option Ref).
Proof.
  refine {| undefined := None;
            isUndefined := fun v => match v with None => true | Some _ => false end |}.
  intros [l|]; split; congruence.
Defined.

(** Modelled from the spec: the comparison by which [unorderedRemoveItem],
    which is defined outside this file, finds the element to remove.  The
    spec says no more than that the value is removed; the comparison is
    taken to find an element that is the item itself. *)
Class ItemEq (V : Type) : Type := {
  itemEq : V -> V -> bool;
  itemEq_spec : forall a b, itemEq a b = true <-> a = b
}.

Section MultiMaps.
Context {host : Host} {V : Type} `{ItemEq V}.

(** The store before any array is made. *)
Definition noArrays : Arrays V :=
  {| nextArray := 0; arrayAt := fun _ => [] |}.

(** An array literal makes a new array. *)
Definition newArray (arrays : Arrays V) (elements : list V) : Ref * Arrays V :=
  (nextArray arrays,
   {| nextArray := S (nextArray arrays);
      arrayAt := fun r => if (r =? nextArray arrays)%nat then elements
                          else arrayAt arrays r |}).

(** A change of the array [values] in place. *)
Definition setArray (arrays : Arrays V) (values : Ref) (elements : list V) : Arrays V :=
  {| nextArray := nextArray arrays;
     arrayAt := fun r => if (r =? values)%nat then elements else arrayAt arrays r |}.

(** [values.push(value)]. *)
Definition Array_push (arrays : Arrays V) (values : Ref) (value : V) : Arrays V :=
  setArray arrays values (arrayAt arrays values ++ [value]).

Fixpoint indexOf (array : list V) (item : V) : option nat :=
  match array with
  | [] => None
  | element :: rest =>
      if itemEq element item then Some 0
      else option_map S (indexOf rest item)
  end.

Fixpoint assign (array : list V) (index : nat) (value : V) : list V :=
  match array, index with
  | [], _ => []
  | _ :: rest, 0 => value :: rest
  | element :: rest, S i => element :: assign rest i value
  end.

(** Modelled from the spec: [unorderedRemoveItem] is defined outside this
    file.  It removes the first element equal to [item], if there is one, by
    moving the last element into its place and dropping the last place; the
    order of the remaining elements is not kept.  The function gives the
    elements of the array after the call. *)
Definition unorderedRemoveItem (array : list V) (item : V) : list V :=
  match indexOf array item with
  | Some index =>
      match rev array with
      | lastElement :: _ => removelast (assign array index lastElement)
      | [] => array
      end
  | None => array
  end.

(** The result is the array returned, with the store and the map after the
    call. *)
Definition multiMapAdd (arrays : Arrays V) (map : Map (option Ref))
    (key : string) (value : V) : Ref * (Arrays V * Map (option Ref)) :=
  match Map_get map key with
  | Some values =>
      let arrays := Array_push arrays values value in
      (values, (arrays, map))
  | None =>
      let (values, arrays) := newArray arrays [value] in
      let (_, map) := setAndReturn map key (Some values) in
      (values, (arrays, map))
  end.

Definition multiMapRemove (arrays : Arrays V) (map : Map (option Ref))
    (key : string) (value : V) : Arrays V * Map (option Ref) :=
  match Map_get map key with
  | Some values =>
      let arrays :=
        setArray arrays values (unorderedRemoveItem (arrayAt arrays values) value) in
      if (List.length (arrayAt arrays values) =? 0)%nat
      then (arrays, snd (Map_delete map key))
      else (arrays, map)
  | None => (arrays, map)
  end.

Inductive MultiMapCall : Type :=
| CallAdd (key : string) (value : V)
| CallRemove (key : string) (value : V).

Definition multiMapCall (state : Arrays V * Map (option Ref)) (c : MultiMapCall)
    : Arrays V * Map (option Ref) :=
  let (arrays, map) := state in
  match c with
  | CallAdd key value => snd (multiMapAdd arrays map key value)
  | CallRemove key value => multiMapRemove arrays map key value
  end.

End MultiMaps.

(** *** [sortInV8ObjectInsertionOrder] *)

(** The pattern between the anchors of the literal the loop tests keys with:
    a single zero, or a digit from one to nine followed by any digits. *)
Definition naturalPattern : RegExp :=
  RAlt (RChar "0") (RSeq (RRange "1" "9") (RStar RDigit)).

Section Sorting.
Context {A : Type}.

Definition looksLikeNatural (key : string) : bool :=
  RegExp_test_anchored naturalPattern key.

Definition partitionKeys (values : list A) (toKey : A -> string) : list A * list A :=
  fold_left
    (fun (groups : list A * list A) value =>
       let (naturalNumberKeys, allOtherKeys) := groups in
       if looksLikeNatural (toKey value)
       then (naturalNumberKeys ++ [value], allOtherKeys)
       else (naturalNumberKeys, allOtherKeys ++ [value]))
    values ([], []).

Definition toInt (toKey : A -> string) (value : A) : Number :=
  parseInt_10 (toKey value).

Definition sortInV8ObjectInsertionOrder (values : list A) (toKey : A -> string) : list A :=
  let (naturalNumberKeys, allOtherKeys) := partitionKeys values toKey in
  let naturalNumberKeys :=
    Array_sort (fun a b => Number_sub (toInt toKey a) (toInt toKey b)) naturalNumberKeys in
  naturalNumberKeys ++ allOtherKeys.

End Sorting.

(** *** [class ShimStringSet] and [createSet] *)

Record ShimStringSet : Type := mkShimStringSet { setData : MapLike Value }.

Section Sets.
Context {host : Host}.

Definition ShimStringSet_new : ShimStringSet :=
  {| setData := createDictionaryModeObject |}.

Definition ShimStringSet_add (this : ShimStringSet) (value : string) : ShimStringSet :=
  {| setData := setProp (setData this) value (VBool true) |}.

Definition ShimStringSet_clear (this : ShimStringSet) : ShimStringSet :=
  {| setData := createDictionaryModeObject |}.

Definition ShimStringSet_has (this : ShimStringSet) (value : string) : bool :=
  has_in value (setData this).

Definition ShimStringSet_delete (this : ShimStringSet) (value : string)
    : bool * ShimStringSet :=
  let had := ShimStringSet_has this value in
  if had then (had, {| setData := deleteProp (setData this) value |})
  else (had, this).

Definition ShimStringSet_isEmpty (this : ShimStringSet) : bool :=
  match forIn (setData this) with
  | _ :: _ => false
  | [] => true
  end.

(** The host's [Set] of strings, after its contract: the elements in
    insertion order. *)
Inductive StringSet : Type :=
| NativeSet (elements : list string)
| ShimSet (s : ShimStringSet).

(** [new SetCtr()], with [SetCtr = usingNativeSets ? Set : ShimStringSet]. *)
Definition createSet : StringSet :=
  if usingNativeSets then NativeSet [] else ShimSet ShimStringSet_new.

Definition Set_has (set : StringSet) (value : string) : bool :=
  match set with
  | NativeSet elements => existsb (String.eqb value) elements
  | ShimSet s => ShimStringSet_has s value
  end.

Definition Set_add (set : StringSet) (value : string) : StringSet :=
  match set with
  | NativeSet elements =>
      if existsb (String.eqb value) elements then set
      else NativeSet (elements ++ [value])
  | ShimSet s => ShimSet (ShimStringSet_add s value)
  end.

End Sets.

(** *** Clients *)

Section Clients.
Context {host : Host} {T : Type} `{HasUndefined T}.

(** [getOrUpdate(map, key, g)] once for each callback [g] of the list, on
    the same map and key; the log lists the applications of the callbacks. *)
Fixpoint getOrUpdateRepeatedly (map : Map T) (key : string)
    (getValues : list (string -> T)) : Map T * list string :=
  match getValues with
  | [] => (map, [])
  | getValue :: rest =>
      let '(_, map', applied) := getOrUpdate map key getValue in
      let (map'', applied') := getOrUpdateRepeatedly map' key rest in
      (map'', applied ++ applied')
  end.

End Clients.

(** *** Further iteration primitives and map utilities *)

Definition NativeMap_values {T : Type} (this : NativeMap T) : Iterator T :=
  List.map snd (mapData this).

(** [map.size] of the host's map. *)
Definition NativeMap_size {T : Type} (this : NativeMap T) : nat :=
  List.length (mapData this).

Section MoreMapUtilities.
Context {host : Host} {T : Type} `{HasUndefined T}.

Definition someValueInMap (map : Map T) (predicate : T -> bool) : option bool :=
  if usingES6NativeMaps
  then option_map (fun m => someInIterator (NativeMap_values m) predicate) (asES6Map map)
  else someInMap map (fun value _key => predicate value).

(** The [while] loop of [forEachKeyInMap] over [map.keys()]. *)
Fixpoint forEachKey_iterate {S : Type} (iter : Iterator string)
    (action : string -> S -> S) (s : S) : S :=
  match iter with
  | [] => s
  | key :: iter' => forEachKey_iterate iter' action (action key s)
  end.

Definition forEachKeyInMap {S : Type} (map : Map T)
    (action : string -> S -> S) (s : S) : option S :=
  if usingES6NativeMaps
  then option_map (fun m => forEachKey_iterate (NativeMap_keys m) action s) (asES6Map map)
  else Some (Map_forEach map (fun _value key s => action key s) s).

(** [(map as any).size] is [undefined] ([None]) on a [ShimMap]. *)
Definition mapSize (map : Map T) : option nat :=
  if usingNativeMaps
  then match map with
       | Native m => Some (NativeMap_size m)
       | Shim _ => None
       end
  else Some (Map_forEach map (fun _ _ size => S size) 0%nat).

Definition mapIsEmpty (map : Map T) : option bool :=
  option_map negb (someKeyInMap map (fun _ => true)).

Definition copyMapEntriesFromTo (source target : Map T) : Map T :=
  Map_forEach source (fun value key target => Map_set target key value) target.

Definition cloneMap (map : Map T) : Map T :=
  let clone := createMap None in
  copyMapEntriesFromTo map clone.

Definition keysOfMap (map : Map T) : option (list string) :=
  forEachKeyInMap map (fun key keys => keys ++ [key]) [].

Definition valuesOfMap (map : Map T) : list T :=
  Map_forEach map (fun value _ values => values ++ [value]) [].

Definition transformKeys (map : Map T) (getNewKey : string -> string) : Map T :=
  let newMap := createMap None in
  Map_forEach map (fun value key newMap => Map_set newMap (getNewKey key) value) newMap.

Definition modifyValue (map : Map T) (key : string) (getNewValue : T -> T) : Map T :=
  Map_set map key (getNewValue (Map_get map key)).

Definition setIfNotSet (map : Map T) (key : string) (value : T) : bool * Map T :=
  let shouldSet := negb (Map_has map key) in
  if shouldSet then (shouldSet, Map_set map key value)
  else (shouldSet, map).

(** *** MapLike utilities *)

Definition getProperty (map : MapLike T) (key : string) : T :=
  if hasOwnProperty map key then getProp map key else undefined.

Definition getOwnKeys (map : MapLike T) : list string :=
  fold_left
    (fun keys key => if hasOwnProperty map key then keys ++ [key] else keys)
    (forIn map) [].

Definition reduceOwnProperties {U : Type} (map : MapLike T)
    (callback : U -> T -> string -> U) (initial : U) : U :=
  fold_left
    (fun result key =>
       if hasOwnProperty map key then callback result (getProp map key) key
       else result)
    (forIn map) initial.

End MoreMapUtilities.

(** [arrayToMap]: at run time the elements and what [makeValue] returns are
    values alike, and without [makeValue] the element itself is stored. *)
Definition arrayToMap {host : Host} (array : list Value) (makeKey : Value -> string)
    (makeValue : option (Value -> Value)) : Map Value :=
  let result := createMap None in
  fold_left
    (fun result value =>
       Map_set result (makeKey value)
         (match makeValue with
          | Some makeValue => makeValue value
          | None => value
          end))
    array result.

(** *** Set utilities *)

Fixpoint distinct (l : list string) : bool :=
  match l with
  | [] => true
  | x :: rest => negb (existsb (String.eqb x) rest) && distinct rest
  end.

Section MoreSets.
Context {host : Host}.

Definition ShimStringSet_forEach {S : Type} (this : ShimStringSet)
    (action : string -> S -> S) (s : S) : S :=
  fold_left (fun s value => action value s) (forIn (setData this)) s.

Definition Set_forEach {S : Type} (set : StringSet)
    (action : string -> S -> S) (s : S) : S :=
  match set with
  | NativeSet elements => fold_left (fun s value => action value s) elements s
  | ShimSet this => ShimStringSet_forEach this action s
  end.

Definition Set_delete (set : StringSet) (value : string) : bool * StringSet :=
  match set with
  | NativeSet elements =>
      (existsb (String.eqb value) elements,
       NativeSet (filter (fun x => negb (String.eqb value x)) elements))
  | ShimSet this =>
      let (had, this') := ShimStringSet_delete this value in (had, ShimSet this')
  end.

Definition Set_clear (set : StringSet) : StringSet :=
  match set with
  | NativeSet _ => NativeSet []
  | ShimSet this => ShimSet (ShimStringSet_clear this)
  end.

(** A set of this runtime: an instance of [SetCtr] without repeated
    elements; its record, if it has one, has no prototype. *)
Definition isHostSet (set : StringSet) : bool :=
  match set with
  | NativeSet elements => usingNativeSets && distinct elements
  | ShimSet this =>
      negb usingNativeSets &&
      match proto (setData this) with None => true | Some _ => false end &&
      uniqueKeys (props (setData this))
  end.

(** [(set as any).size === 0] is [false] on a [ShimStringSet], whose [size]
    is [undefined]; [set.isEmpty()] on the host's set is a [TypeError]
    ([None]). *)
Definition setIsEmpty (set : StringSet) : option bool :=
  if usingNativeSets
  then match set with
       | NativeSet elements => Some (List.length elements =? 0)%nat
       | ShimSet _ => Some false
       end
  else match set with
       | ShimSet this => Some (ShimStringSet_isEmpty this)
       | NativeSet _ => None
       end.

Definition copySetValuesFromTo (source target : StringSet) : StringSet :=
  Set_forEach source (fun value target => Set_add target value) target.

Definition setAggregate {A : Type} (array : list A) (getSet : A -> StringSet) : StringSet :=
  let result := createSet in
  fold_left (fun result value => copySetValuesFromTo (getSet value) result) array result.

Definition filterSetToArray (set : StringSet) (predicate : string -> bool) : list string :=
  Set_forEach set
    (fun value result => if predicate value then result ++ [value] else result) [].

End MoreSets.

(** *** [updateMapValues] *)

Section UpdateMapValues.
Context {host : Host} {T : Type} `{HasUndefined T}.

(** [map.forEach] with a callback that assigns to keys of the map it runs
    on: the loop visits the keys the map has, in iteration order, and reads
    the value of a key when it gets to it.  Assigning to a key the map has
    neither adds nor removes a key, so the keys to visit do not change. *)
Definition Map_forEach_assigning (map : Map T)
    (action : T -> string -> Map T -> Map T) : Map T :=
  fold_left (fun current key => action (Map_get current key) key current)
            (List.map fst (iterationOrder map)) map.

Definition updateMapValues (map : Map T) (getNewValue : T -> T) : Map T :=
  Map_forEach_assigning map (fun value key map => Map_set map key (getNewValue value)).

End UpdateMapValues.

(** *** [clone], [extend] and [assign] *)

(** [o[k] = v] on an object that may have a prototype.  An object with a
    prototype inherits the accessor [__proto__]: assigning to that key runs
    the accessor instead of creating a property, which is outside this
    model ([None]). *)
Definition assignProperty (o : Object Value) (k : string) (v : Value)
    : option (Object Value) :=
  if (k =? "__proto__")
     && match proto o with Some _ => true | None => false end
     && negb (hasOwnProperty o k)
  then None
  else Some (setProp o k v).

Section CloneExtendAssign.
Context {host : Host}.

(** [for (const id in source) if (hasOwnProperty.call(source, id))
    result[id] = source[id]]. *)
Definition copyOwnProperties (source : Object Value) (result : option (Object Value))
    : option (Object Value) :=
  fold_left
    (fun result id =>
       match result with
       | Some r =>
           if hasOwnProperty source id then assignProperty r id (getProp source id)
           else Some r
       | None => None
       end)
    (forIn source) result.

Definition clone (object : Object Value) : option (Object Value) :=
  let result := literal [] in
  copyOwnProperties object (Some result).

Definition extend (first second : Object Value) : option (Object Value) :=
  let result := literal [] in
  let result := copyOwnProperties second (Some result) in
  copyOwnProperties first result.

(** [assign(t, ...args)]; the name [assign] is taken by the array helper
    above. *)
Definition assign_args (t : Object Value) (args : list (Object Value))
    : option (Object Value) :=
  fold_left
    (fun t arg =>
       fold_left
         (fun t p =>
            match t with
            | Some t => assignProperty t p (getProp arg p)
            | None => None
            end)
         (getOwnKeys arg) t)
    args (Some t).

End CloneExtendAssign.

End ts.

#[export] Instance Value_ItemEq : ts.ItemEq JS.Value.
Proof.
  refine {| ts.itemEq := fun a b => if JS.Value_eq_dec a b then true else false |}.
  intros a b. destruct (JS.Value_eq_dec a b); split; congruence.
Defined.

(** * The vocabulary of the properties *)

Import JS ts.

(** The class and the prototype of a map never change. *)
Definition sameKind {T : Type} (map map' : Map T) : Prop :=
  match map, map' with
  | Native _, Native _ => True
  | Shim m, Shim m' => proto (data m) = proto (data m')
  | _, _ => False
  end.

(** What C2 says of a result [r] and of the entries [f] was applied to, for
    the entries [es] in iteration order: [r] is the result on the first entry
    on which [f] does not return [undefined] and [f] ran on the entries up to
    that one, or there is no such entry, [r] is [undefined] and [f] ran on
    every entry. *)
Definition firstResult {T U : Type} `{HasUndefined U} (f : T -> string -> U)
    (es : list (string * T)) (r : U) (applied : list (T * string)) : Prop :=
  (exists before key value after,
      es = before ++ (key, value) :: after /\
      (forall k v, In (k, v) before -> f v k = undefined) /\
      f value key <> undefined /\
      r = f value key /\
      applied = List.map (fun kv => (snd kv, fst kv)) before ++ [(value, key)])
  \/
  ((forall k v, In (k, v) es -> f v k = undefined) /\
   r = undefined /\
   applied = List.map (fun kv => (snd kv, fst kv)) es).





(** The enumeration order the source attributes to V8: keys that look like
    natural numbers first, ascending, then the others in creation order. *)
Definition v8ForInOrder (keys : list string) : list string :=
  sortInV8ObjectInsertionOrder keys (fun key => key).

(** The elements of the array a key of the multi-map holds. *)
Definition arrayUnder {V : Type} (arrays : Arrays V) (map : Map (option Ref))
    (k : string) : option (list V) :=
  option_map (arrayAt arrays) (Map_get map k).

(** Every key of the multi-map holds an array with an element. *)
Definition pruned {V : Type} (arrays : Arrays V) (map : Map (option Ref)) : Prop :=
  forall k, Map_has map k = true -> exists x xs, arrayUnder arrays map k = Some (x :: xs).

(** Every array the multi-map holds was made in the store, and no two keys
    hold the same array. *)
Definition allocated {V : Type} (arrays : Arrays V) (map : Map (option Ref)) : Prop :=
  forall k r, Map_get map k = Some r -> (r < nextArray arrays)%nat.

Definition unshared (map : Map (option Ref)) : Prop :=
  forall k k' r, Map_get map k = Some r -> Map_get map k' = Some r -> k = k'.

(** What the calls keep of a multi-map that starts empty. *)
Definition kept {host : Host} {V : Type} (arrays : Arrays V) (map : Map (option Ref))
    : Prop :=
  isHostMap map = true /\ allocated arrays map /\ unshared map /\ pruned arrays map.

(** The pairs a [for-in] loop over [o] sees when its body reads [o[key]]. *)
Definition enumerate {host : Host} {T : Type} `{HasUndefined T} (o : MapLike T)
    : list (string * T) :=
  List.map (fun key => (key, getProp o key)) (forIn o).

(** The two maps have the same keys, and the values under each shared key
    are equal for the comparer. *)
Definition sameKeys {T : Type} (a b : Map T) : Prop :=
  forall k, Map_has a k = Map_has b k.

Definition sameValues {T : Type} `{HasUndefined T} {SE : StrictEq T}
    (valuesAreEqual : option (T -> T -> bool)) (a b : Map T) : Prop :=
  forall k, Map_has a k = true -> Map_has b k = true ->
            equalWith valuesAreEqual (Map_get a k) (Map_get b k) = true.

(** The elements of a set in the order [forEach] visits them. *)
Definition setElements {host : Host} (set : StringSet) : list string :=
  match set with
  | NativeSet elements => elements
  | ShimSet this => forIn (setData this)
  end.


(** Sample data for the examples. *)

(** A multi-map in which the keys ["a"] and ["b"] hold one and the same
    array. *)
Definition sharedArrays (host : Host) : Arrays Value * Map (option Ref) :=
  let added :=
    multiMapAdd noArrays (createMap (host := host) None) "a" (VNum (Finite 1)) in
  (fst (snd added), Map_set (snd (snd added)) "b" (Some (fst added))).

Definition sampleEntries : list (string * Value) :=
  [("b", VNum (Finite 1)); ("2", VNum (Finite 2)); ("a", VNum (Finite 3)); ("0", VNum (Finite 0))].

Definition sampleMap (host : Host) : Map Value :=
  createMap (host := host) (Some sampleEntries).


Definition reordered (host : Host) : Map Value :=
  createMap (host := host)
    (Some [("0", VNum (Finite 0)); ("a", VNum (Finite 3)); ("2", VNum (Finite 2)); ("b", VNum (Finite 1))]).

(** A callback: the key, for a value that is a number above one. *)
Definition keyOfLarge (value : Value) (key : string) : Value :=
  match value with
  | VNum (Finite n) => if (1 <? n)%Z then VStr key else VUndefined
  | _ => VUndefined
  end.

(** * Properties *)

(** ** Property lists *)

Section PropertyListFacts.
Context {T : Type}.
Implicit Types (k : string) (v : T) (ps : list (string * T)).

Lemma lookup_update_same k v ps : lookup k (update k v ps) = Some v.
Proof.
  induction ps as [|[k' v'] ps IH]; simpl.
  - now rewrite String.eqb_refl.
  - destruct (k =? k') eqn:E; simpl.
    + now rewrite String.eqb_refl.
    + now rewrite E.
Qed.

Lemma lookup_update_other k k' v ps :
  k <> k' -> lookup k (update k' v ps) = lookup k ps.
Proof.
  intros Hne. apply String.eqb_neq in Hne.
  induction ps as [|[k2 v2] ps IH]; simpl.
  - now rewrite Hne.
  - destruct (k' =? k2) eqn:E; simpl.
    + apply String.eqb_eq in E; subst k2. now rewrite Hne.
    + now rewrite IH.
Qed.

Lemma lookup_remove_same k ps : lookup k (remove k ps) = None.
Proof.
  induction ps as [|[k' v'] ps IH]; simpl; auto.
  destruct (k =? k') eqn:E; simpl; auto.
  now rewrite E.
Qed.

Lemma lookup_remove_other k k' ps :
  k <> k' -> lookup k (remove k' ps) = lookup k ps.
Proof.
  intros Hne. apply String.eqb_neq in Hne.
  induction ps as [|[k2 v2] ps IH]; simpl; auto.
  destruct (k' =? k2) eqn:E; simpl.
  - apply String.eqb_eq in E; subst k2. now rewrite Hne.
  - now rewrite IH.
Qed.

Lemma lookup_In k v ps : lookup k ps = Some v -> In (k, v) ps.
Proof.
  induction ps as [|[k' v'] ps IH]; simpl; try discriminate.
  destruct (k =? k') eqn:E.
  - apply String.eqb_eq in E; subst. intros [= ->]. now left.
  - auto.
Qed.

Lemma defined_In k ps : defined k ps = true <-> In k (map fst ps).
Proof.
  unfold defined. induction ps as [|[k' v'] ps IH]; simpl.
  - split; [discriminate | tauto].
  - destruct (k =? k') eqn:E.
    + apply String.eqb_eq in E; subst. split; auto.
    + apply String.eqb_neq in E. rewrite IH. split; [auto | intros [?|?]; congruence].
Qed.

Lemma defined_update k k' v ps :
  defined k (update k' v ps) = (k =? k') || defined k ps.
Proof.
  unfold defined. destruct (k =? k') eqn:E; simpl.
  - apply String.eqb_eq in E; subst. now rewrite lookup_update_same.
  - apply String.eqb_neq in E. now rewrite lookup_update_other.
Qed.

Lemma defined_remove k k' ps :
  defined k (remove k' ps) = negb (k =? k') && defined k ps.
Proof.
  unfold defined. destruct (k =? k') eqn:E; simpl.
  - apply String.eqb_eq in E; subst. now rewrite lookup_remove_same.
  - apply String.eqb_neq in E. now rewrite lookup_remove_other.
Qed.

End PropertyListFacts.

(** ** Maps of the runtime *)

Section UniqueKeys.
Context {T : Type}.
Implicit Types (k : string) (v : T) (ps : list (string * T)).

Lemma uniqueKeys_NoDup ps : uniqueKeys ps = true <-> NoDup (List.map fst ps).
Proof.
  induction ps as [|[k v] ps IH]; simpl.
  - split; auto using NoDup_nil.
  - rewrite andb_true_iff, negb_true_iff, NoDup_cons_iff, IH, <- defined_In.
    destruct (defined k ps); intuition congruence.
Qed.

Lemma uniqueKeys_update k v ps :
  uniqueKeys ps = true -> uniqueKeys (update k v ps) = true.
Proof.
  induction ps as [|[k' v'] ps IH]; simpl; auto.
  intros Hu. apply andb_true_iff in Hu as [Hk Hu].
  destruct (k =? k') eqn:E; simpl.
  - apply String.eqb_eq in E; subst. now rewrite Hk, Hu.
  - rewrite IH by assumption. rewrite defined_update.
    rewrite String.eqb_sym, E. simpl. now rewrite Hk.
Qed.

Lemma uniqueKeys_remove k ps :
  uniqueKeys ps = true -> uniqueKeys (remove k ps) = true.
Proof.
  induction ps as [|[k' v'] ps IH]; simpl; auto.
  intros Hu. apply andb_true_iff in Hu as [Hk Hu].
  destruct (k =? k') eqn:E; simpl; auto.
  rewrite IH by assumption. rewrite defined_remove.
  apply negb_true_iff in Hk. rewrite Hk. now rewrite andb_false_r.
Qed.

Lemma lookup_In_unique k v ps :
  NoDup (List.map fst ps) -> (lookup k ps = Some v <-> In (k, v) ps).
Proof.
  intros Hu. split; [apply lookup_In|].
  induction ps as [|[k' v'] ps IH]; simpl; [tauto|].
  apply NoDup_cons_iff in Hu as [Hk Hu].
  intros [[= -> ->]|Hin].
  - now rewrite String.eqb_refl.
  - destruct (k =? k') eqn:E; auto.
    apply String.eqb_eq in E; subst k'. exfalso. apply Hk.
    apply (in_map fst) in Hin. exact Hin.
Qed.

End UniqueKeys.

Section HostMaps.
Context {host : Host} {T : Type} `{HasUndefined T}.
Implicit Types (map : Map T) (key : string) (value : T).

Lemma createDictionaryModeObject_empty :
  createDictionaryModeObject (T := T) = {| proto := None; props := [] |}.
Proof. reflexivity. Qed.

Lemma isHostMap_unique map :
  isHostMap map = true -> uniqueKeys (entriesOf map) = true.
Proof.
  destruct map as [m|m]; simpl; intros Hm.
  - now apply andb_true_iff in Hm.
  - now apply andb_true_iff in Hm.
Qed.

Lemma isHostMap_Shim (m : ShimMap T) :
  isHostMap (Shim m) = true -> usingNativeMaps = false /\ proto (data m) = None.
Proof.
  simpl. intros Hm. apply andb_true_iff in Hm as [Hm _].
  apply andb_true_iff in Hm as [Hn Hp]. apply negb_true_iff in Hn.
  split; auto. now destruct (proto (data m)).
Qed.

Lemma isHostMap_sameKind map map' :
  isHostMap map = true -> sameKind map map' ->
  uniqueKeys (entriesOf map') = true -> isHostMap map' = true.
Proof.
  destruct map as [m|m], map' as [m'|m']; simpl; try tauto; intros Hm Hk Hu.
  - apply andb_true_iff in Hm as [-> _]. now rewrite Hu.
  - apply andb_true_iff in Hm as [Hm _]. rewrite <- Hk, Hm, Hu. reflexivity.
Qed.

Lemma MapCtr_new_isHostMap : isHostMap (MapCtr_new (T := T)) = true.
Proof.
  unfold MapCtr_new, isHostMap. destruct usingNativeMaps eqn:E; simpl; now rewrite ?E.
Qed.

Lemma entriesOf_set map key value :
  entriesOf (Map_set map key value) = update key value (entriesOf map).
Proof. destruct map; reflexivity. Qed.

Lemma Map_set_isHostMap map key value :
  isHostMap map = true -> isHostMap (Map_set map key value) = true.
Proof.
  intros Hm. apply (isHostMap_sameKind map); auto.
  - destruct map; simpl; auto.
  - rewrite entriesOf_set. now apply uniqueKeys_update, isHostMap_unique.
Qed.

Lemma Map_get_lookup map key :
  isHostMap map = true ->
  Map_get map key = match lookup key (entriesOf map) with Some v => v | None => undefined end.
Proof.
  destruct map as [m|m]; simpl; auto.
  intros Hm. apply isHostMap_Shim in Hm as [_ Hp].
  unfold ShimMap_get, getProp. now rewrite Hp.
Qed.

Lemma Map_has_defined map key :
  isHostMap map = true -> Map_has map key = defined key (entriesOf map).
Proof.
  destruct map as [m|m]; simpl; auto.
  intros Hm. apply isHostMap_Shim in Hm as [_ Hp].
  unfold ShimMap_has, has_in, inherits, hasOwnProperty.
  rewrite Hp. apply orb_false_r.
Qed.

Lemma remove_absent key (ps : list (string * T)) :
  defined key ps = false -> remove key ps = ps.
Proof.
  unfold defined. induction ps as [|[k' v'] ps IH]; simpl; auto.
  destruct (key =? k') eqn:Ek; [discriminate|].
  intros Hd. f_equal. now apply IH.
Qed.

Lemma entriesOf_delete map key :
  isHostMap map = true ->
  entriesOf (snd (Map_delete map key)) = remove key (entriesOf map).
Proof.
  intros Hm. destruct map as [m|m]; simpl; auto.
  pose proof (Map_has_defined (Shim m) key Hm) as Hd. simpl in Hd.
  unfold ShimMap_delete. destruct (ShimMap_has m key) eqn:E; simpl; auto.
  symmetry. now apply remove_absent.
Qed.

Lemma Map_delete_isHostMap map key :
  isHostMap map = true -> isHostMap (snd (Map_delete map key)) = true.
Proof.
  intros Hm. apply (isHostMap_sameKind map); auto.
  - destruct map as [m|m]; simpl; auto.
    unfold ShimMap_delete. destruct (ShimMap_has m key); reflexivity.
  - rewrite entriesOf_delete by assumption.
    now apply uniqueKeys_remove, isHostMap_unique.
Qed.

Lemma Map_clear_isHostMap map :
  isHostMap map = true -> isHostMap (Map_clear map) = true.
Proof.
  destruct map as [m|m]; simpl; intros Hm.
  - apply andb_true_iff in Hm as [-> _]. reflexivity.
  - apply andb_true_iff in Hm as [Hm _].
    apply andb_true_iff in Hm as [-> _]. reflexivity.
Qed.

Lemma createMap_isHostMap pairs : isHostMap (createMap pairs) = true.
Proof.
  unfold createMap. destruct pairs as [pairs|]; [|apply MapCtr_new_isHostMap].
  generalize (MapCtr_new_isHostMap). generalize (MapCtr_new (T := T)).
  induction pairs as [|[k v] pairs IH]; simpl; intros m Hm; auto.
  apply IH. now apply Map_set_isHostMap.
Qed.

Lemma calls_isHostMap map (cs : list MapCall) :
  isHostMap map = true -> isHostMap (calls map cs) = true.
Proof.
  unfold calls. revert map.
  induction cs as [|c cs IH]; simpl; intros map Hm; auto.
  apply IH. destruct c; simpl;
    auto using Map_set_isHostMap, Map_delete_isHostMap, Map_clear_isHostMap.
Qed.

Lemma Map_get_set_same map key value :
  isHostMap map = true -> Map_get (Map_set map key value) key = value.
Proof.
  intros Hm. rewrite Map_get_lookup by now apply Map_set_isHostMap.
  now rewrite entriesOf_set, lookup_update_same.
Qed.

Lemma Map_get_set_other map key key' value :
  isHostMap map = true -> key <> key' ->
  Map_get (Map_set map key' value) key = Map_get map key.
Proof.
  intros Hm Hne. rewrite !Map_get_lookup by auto using Map_set_isHostMap.
  now rewrite entriesOf_set, lookup_update_other.
Qed.

Lemma Map_get_delete_same map key :
  isHostMap map = true -> Map_get (snd (Map_delete map key)) key = undefined.
Proof.
  intros Hm. rewrite Map_get_lookup by now apply Map_delete_isHostMap.
  now rewrite entriesOf_delete, lookup_remove_same.
Qed.

Lemma Map_get_delete_other map key key' :
  isHostMap map = true -> key <> key' ->
  Map_get (snd (Map_delete map key')) key = Map_get map key.
Proof.
  intros Hm Hne. rewrite !Map_get_lookup by auto using Map_delete_isHostMap.
  now rewrite entriesOf_delete, lookup_remove_other.
Qed.

Lemma Map_has_set map key key' value :
  isHostMap map = true ->
  Map_has (Map_set map key' value) key = (key =? key') || Map_has map key.
Proof.
  intros Hm. rewrite !Map_has_defined by auto using Map_set_isHostMap.
  now rewrite entriesOf_set, defined_update.
Qed.

Lemma Map_has_delete map key key' :
  isHostMap map = true ->
  Map_has (snd (Map_delete map key')) key = negb (key =? key') && Map_has map key.
Proof.
  intros Hm. rewrite !Map_has_defined by auto using Map_delete_isHostMap.
  now rewrite entriesOf_delete, defined_remove.
Qed.

Lemma Map_get_absent map key :
  isHostMap map = true -> Map_has map key = false -> Map_get map key = undefined.
Proof.
  intros Hm. rewrite Map_has_defined, Map_get_lookup by assumption.
  unfold defined. now destruct (lookup key (entriesOf map)).
Qed.

End HostMaps.

(** ** C1: [get] after [set] and after [delete] *)

(** C1. Whatever calls of [set], [get], [has], [delete] and [clear] a map
    made by [createMap] has seen, in either kind of runtime: after
    [map.set(k, v)], [map.get(k)] is [v]; after [map.delete(k)],
    [map.get(k)] is [undefined]. *)
Theorem C1_get_after_set_and_after_delete
    {host : Host} {T : Type} `{HasUndefined T}
    (pairs : option (list (string * T))) (cs : list MapCall) (k : string) (v : T) :
  let map := calls (createMap pairs) cs in
  Map_get (Map_set map k v) k = v /\
  Map_get (snd (Map_delete map k)) k = undefined.
Proof.
  intros map.
  assert (Hm : isHostMap map = true) by apply calls_isHostMap, createMap_isHostMap.
  split.
  - now apply Map_get_set_same.
  - now apply Map_get_delete_same.
Qed.

(** ** Iteration *)

Lemma fold_left_snoc {A B : Type} (g : A -> B) (l : list A) (acc : list B) :
  fold_left (fun acc x => acc ++ [g x]) l acc = acc ++ map g l.
Proof.
  revert acc. induction l as [|x l IH]; simpl; intros acc.
  - now rewrite app_nil_r.
  - rewrite IH. now rewrite <- app_assoc.
Qed.

Section Iteration.
Context {host : Host} {T : Type} `{HasUndefined T}.
Implicit Types (map : Map T) (key : string) (value : T).

Lemma iterationOrder_Native (m : NativeMap T) :
  iterationOrder (Native m) = mapData m.
Proof.
  unfold iterationOrder; simpl. unfold NativeMap_forEach.
  rewrite (fold_left_snoc (fun kv => (fst kv, snd kv))). simpl.
  rewrite <- (map_id (mapData m)) at 2. apply map_ext. now intros [].
Qed.

Lemma iterationOrder_Shim (m : ShimMap T) :
  iterationOrder (Shim m) =
  List.map (fun key => (key, getProp (data m) key)) (forIn (data m)).
Proof.
  unfold iterationOrder; simpl. unfold ShimMap_forEach.
  now rewrite (fold_left_snoc (fun key => (key, getProp (data m) key))).
Qed.

(** [forEach] runs its callback on the entries in iteration order. *)
Lemma Map_forEach_iterationOrder {S : Type} map (action : T -> string -> S -> S) (s : S) :
  Map_forEach map action s =
  fold_left (fun s kv => action (snd kv) (fst kv) s) (iterationOrder map) s.
Proof.
  destruct map as [m|m].
  - now rewrite iterationOrder_Native.
  - rewrite iterationOrder_Shim. simpl. unfold ShimMap_forEach.
    generalize (forIn (data m)) as keys. intros keys. revert s.
    induction keys as [|k keys IH]; simpl; intros s; auto.
Qed.

Lemma isHostMap_ES6 map :
  isHostMap map = true -> usingES6NativeMaps = true ->
  exists m, map = Native m.
Proof.
  unfold usingES6NativeMaps. intros Hm Hes.
  apply andb_true_iff in Hes as [Hn _].
  destruct map as [m|m]; [now exists m|].
  apply isHostMap_Shim in Hm as [Hm _]. congruence.
Qed.

End Iteration.

(** ** The two loops of [findInMap] *)

Section FindInMap.
Context {host : Host} {T U : Type} {HT : HasUndefined T} {HU : HasUndefined U}.
Variable f : T -> string -> U.

Lemma isUndefined_false (u : U) : isUndefined u = false <-> u <> undefined.
Proof.
  rewrite <- isUndefined_spec. destruct (isUndefined u); split; congruence.
Qed.

Lemma findInMap_iterate_firstResult (es : list (string * T)) :
  firstResult f es (fst (findInMap_iterate es f)) (snd (findInMap_iterate es f)).
Proof.
  induction es as [|[key value] es IH]; simpl.
  - right. repeat split; auto. intros k v [].
  - destruct (isUndefined (f value key)) eqn:E; simpl.
    + apply isUndefined_spec in E.
      destruct (findInMap_iterate es f) as [later applied]; simpl in *.
      destruct IH as [(before & k & v & after & -> & Hb & Hf & -> & ->) | (Hall & -> & ->)].
      * left. exists ((key, value) :: before), k, v, after. repeat split; auto.
        intros k' v' [[= <- <-]|Hin]; auto.
      * right. repeat split; auto.
        intros k' v' [[= <- <-]|Hin]; auto.
    + apply isUndefined_false in E.
      left. exists [], key, value, es. repeat split; auto. intros k v [].
Qed.

(** The loop of the [forEach] branch, started in any state. *)
Lemma findInMap_forEach_fold (es : list (string * T)) (r : U) (applied : list (T * string)) :
  fold_left
    (fun st kv =>
       if isUndefined (fst st)
       then (f (snd kv) (fst kv), snd st ++ [(snd kv, fst kv)])
       else st)
    es (r, applied)
  = if isUndefined r
    then (fst (findInMap_iterate es f), applied ++ snd (findInMap_iterate es f))
    else (r, applied).
Proof.
  revert r applied. induction es as [|[key value] es IH]; simpl; intros r applied.
  - destruct (isUndefined r) eqn:E; [|reflexivity].
    apply isUndefined_spec in E; subst. now rewrite app_nil_r.
  - destruct (isUndefined r) eqn:E; rewrite IH.
    + destruct (isUndefined (f value key)) eqn:Ef; simpl.
      * destruct (findInMap_iterate es f); simpl. now rewrite <- app_assoc.
      * reflexivity.
    + now rewrite E.
Qed.

(** Both branches compute the same result and apply [f] to the same
    entries. *)
Lemma findInMap_forEach_iterate (map : Map T) :
  findInMap_forEach map f = findInMap_iterate (iterationOrder map) f.
Proof.
  unfold findInMap_forEach. rewrite Map_forEach_iterationOrder.
  rewrite findInMap_forEach_fold.
  replace (isUndefined (undefined (T := U))) with true
    by (symmetry; now apply isUndefined_spec).
  simpl. now destruct (findInMap_iterate (iterationOrder map) f).
Qed.

End FindInMap.

(** [forEach] itself has no early exit: its callback runs once for every
    entry, so in the [forEach] branch it is the guard, not the loop, that
    keeps [f] from later entries. *)
Remark Map_forEach_runs_on_every_entry
    {host : Host} {T : Type} `{HasUndefined T} (map : Map T) :
  Map_forEach map (fun _ _ n => S n) 0%nat = List.length (iterationOrder map).
Proof.
  rewrite Map_forEach_iterationOrder.
  generalize (iterationOrder map) as es. intros es.
  rewrite <- (Nat.add_0_r (List.length es)). generalize 0%nat as n.
  induction es as [|e es IH]; simpl; intros n; auto.
  rewrite IH. lia.
Qed.

(** ** Regular expressions: the matcher decides the words of a pattern *)

Section RegExpFacts.









End RegExpFacts.

(** ** Numbers *)




Lemma roundMagnitude_zero : roundMagnitude 0 = 0%Z.
Proof. reflexivity. Qed.







(** ** Keys that look like natural numbers *)









(** ** Sorting and partitioning *)

Section SortFacts.
Context {A : Type}.
Variable comparefn : A -> A -> Number.

Lemma insertSorted_Permutation x (l : list A) :
  Permutation (insertSorted comparefn x l) (x :: l).
Proof.
  induction l as [|y l IH]; simpl; auto.
  destruct (comesAfter comparefn x y); auto.
  rewrite IH. apply perm_swap.
Qed.

Lemma Array_sort_Permutation (l : list A) : Permutation (Array_sort comparefn l) l.
Proof.
  induction l as [|x l IH]; simpl; auto.
  rewrite insertSorted_Permutation. now constructor.
Qed.

(** When the comparator is positive exactly on the pairs that an integer
    rank on the elements at hand puts in descending order, the result is
    ascending in the rank. *)
Variable rank : A -> Z.
Variable P : A -> Prop.
Hypothesis comparefn_rank :
  forall a b, P a -> P b -> comesAfter comparefn a b = (rank b <? rank a)%Z.




End SortFacts.

Lemma filter_Permutation {A : Type} (p : A -> bool) (l : list A) :
  Permutation (filter p l ++ filter (fun x => negb (p x)) l) l.
Proof.
  induction l as [|x l IH]; simpl; auto.
  destruct (p x); simpl.
  - now constructor.
  - rewrite <- Permutation_middle. now constructor.
Qed.

Section PartitionFacts.
Context {A : Type}.
Variable toKey : A -> string.

Lemma partitionKeys_fold (values naturals others : list A) :
  fold_left
    (fun (groups : list A * list A) value =>
       let (naturalNumberKeys, allOtherKeys) := groups in
       if looksLikeNatural (toKey value)
       then (naturalNumberKeys ++ [value], allOtherKeys)
       else (naturalNumberKeys, allOtherKeys ++ [value]))
    values (naturals, others)
  = (naturals ++ filter (fun v => looksLikeNatural (toKey v)) values,
     others ++ filter (fun v => negb (looksLikeNatural (toKey v))) values).
Proof.
  revert naturals others. induction values as [|x values IH]; simpl; intros naturals others.
  - now rewrite !app_nil_r.
  - destruct (looksLikeNatural (toKey x)); simpl; rewrite IH, <- app_assoc; reflexivity.
Qed.

Lemma partitionKeys_filter (values : list A) :
  partitionKeys values toKey
  = (filter (fun v => looksLikeNatural (toKey v)) values,
     filter (fun v => negb (looksLikeNatural (toKey v))) values).
Proof. unfold partitionKeys. now rewrite partitionKeys_fold. Qed.

Lemma sortInV8ObjectInsertionOrder_Permutation (values : list A) :
  Permutation (sortInV8ObjectInsertionOrder values toKey) values.
Proof.
  unfold sortInV8ObjectInsertionOrder. rewrite partitionKeys_filter.
  rewrite Array_sort_Permutation. apply filter_Permutation.
Qed.

End PartitionFacts.

(** ** Three runtimes *)

Lemma v8ForInOrder_Permutation keys : Permutation (v8ForInOrder keys) keys.
Proof. apply sortInV8ObjectInsertionOrder_Permutation. Qed.

(** A runtime with ES6 maps and sets. *)
Definition es6Host : Host :=
  {| hasMap := true; hasMapIterators := true; hasSet := true;
     forInOrder := v8ForInOrder;
     forInOrder_Permutation := v8ForInOrder_Permutation |}.

(** A runtime whose [Map] has [forEach] but no iterators. *)
Definition ie11Host : Host :=
  {| hasMap := true; hasMapIterators := false; hasSet := true;
     forInOrder := fun keys => keys;
     forInOrder_Permutation := fun keys => Permutation_refl keys |}.

(** A runtime without [Map] and [Set]: the shims are in use. *)
Definition es5Host : Host :=
  {| hasMap := false; hasMapIterators := false; hasSet := false;
     forInOrder := v8ForInOrder;
     forInOrder_Permutation := v8ForInOrder_Permutation |}.

Example findInMap_es6 :
  findInMap (host := es6Host) (createMap (host := es6Host) (Some sampleEntries)) keyOfLarge
  = Some (VStr "2", [(VNum (Finite 1), "b"); (VNum (Finite 2), "2")]).
Proof. reflexivity. Qed.

Example findInMap_shim :
  findInMap (host := es5Host) (createMap (host := es5Host) (Some sampleEntries)) keyOfLarge
  = Some (VStr "2", [(VNum (Finite 0), "0"); (VNum (Finite 2), "2")]).
Proof. vm_compute. reflexivity. Qed.

Example findInMap_none :
  findInMap (host := ie11Host) (createMap (host := ie11Host) (Some sampleEntries))
    (fun _ _ => VUndefined)
  = Some (VUndefined, [(VNum (Finite 1), "b"); (VNum (Finite 2), "2"); (VNum (Finite 3), "a"); (VNum (Finite 0), "0")]).
Proof. reflexivity. Qed.

(** ** C7: [sortInV8ObjectInsertionOrder] *)



Section NaturalKeys.
Context {A : Type}.
Variable toKey : A -> string.



End NaturalKeys.



Example parseInt_10_rounds :
  parseInt_10 "9007199254740993" = Finite 9007199254740992 /\
  parseInt_10 "9007199254740992" = Finite 9007199254740992 /\
  parseInt_10 "9007199254740995" = Finite 9007199254740996 /\
  parseInt_10 "  -42px" = Finite (-42) /\
  parseInt_10 "x" = NaN /\
  Number_sub (parseInt_10 "9007199254740993") (parseInt_10 "9007199254740992")
  = Finite 0.
Proof. vm_compute. repeat split; reflexivity. Qed.

(** ** C3: [getOrUpdate] and [getOrUpdateAndAllowUndefined] *)

Section GetOrUpdate.
Context {host : Host} {T : Type} `{HasUndefined T}.
Implicit Types (map : Map T) (key : string).

Lemma isUndefined_undefined : isUndefined (undefined (T := T)) = true.
Proof. now apply isUndefined_spec. Qed.

Lemma getOrUpdate_present map key getValue :
  Map_get map key <> undefined ->
  getOrUpdate map key getValue = (Map_get map key, map, []).
Proof.
  intros Hv. unfold getOrUpdate.
  destruct (isUndefined (Map_get map key)) eqn:E; [|reflexivity].
  apply isUndefined_spec in E. contradiction.
Qed.

Lemma getOrUpdate_undefined map key getValue :
  Map_get map key = undefined ->
  getOrUpdate map key getValue
  = (getValue key, Map_set map key (getValue key), [key]).
Proof.
  intros Hv. unfold getOrUpdate. now rewrite Hv, isUndefined_undefined.
Qed.

Lemma getOrUpdate_isHostMap map key getValue :
  isHostMap map = true -> isHostMap (snd (fst (getOrUpdate map key getValue))) = true.
Proof.
  intros Hm. unfold getOrUpdate.
  destruct (isUndefined (Map_get map key)); simpl; auto using Map_set_isHostMap.
Qed.

(** Once the value under [key] is not [undefined], callbacks that do not
    return [undefined] are never applied. *)
Lemma getOrUpdateRepeatedly_present map key getValues :
  Map_get map key <> undefined ->
  getOrUpdateRepeatedly map key getValues = (map, []).
Proof.
  intros Hv. induction getValues as [|g rest IH]; simpl; auto.
  rewrite getOrUpdate_present by assumption. now rewrite IH.
Qed.

End GetOrUpdate.

(** C3. [getOrUpdate] returns the stored value, without applying the
    callback, when [map.get(key)] is not [undefined]; otherwise it applies
    the callback to the key once, stores the result under the key and returns
    it.  Over any series of calls whose callbacks do not return [undefined]
    the callbacks are applied at most once in all.  When the key holds
    [undefined], [getOrUpdate] applies the callback again, while
    [getOrUpdateAndAllowUndefined], which asks [map.has(key)], does not. *)
Theorem C3_getOrUpdate_spec
    {host : Host} {T : Type} `{HasUndefined T}
    (map : Map T) (key : string) (getValue : string -> T) :
  isHostMap map = true ->
  (Map_get map key <> undefined ->
     getOrUpdate map key getValue = (Map_get map key, map, [])) /\
  (Map_get map key = undefined ->
     getOrUpdate map key getValue
       = (getValue key, Map_set map key (getValue key), [key]) /\
     Map_get (Map_set map key (getValue key)) key = getValue key) /\
  (forall getValues,
     Forall (fun g => g key <> undefined) getValues ->
     (List.length (snd (getOrUpdateRepeatedly map key getValues)) <= 1)%nat) /\
  (let stored := Map_set map key undefined in
   Map_has stored key = true /\
   getOrUpdate stored key getValue
     = (getValue key, Map_set stored key (getValue key), [key]) /\
   getOrUpdateAndAllowUndefined stored key getValue = (undefined, stored, [])) /\
  (Map_has map key = true ->
     getOrUpdateAndAllowUndefined map key getValue = (Map_get map key, map, [])) /\
  (Map_has map key = false ->
     getOrUpdateAndAllowUndefined map key getValue
       = (getValue key, Map_set map key (getValue key), [key])).
Proof.
  intros Hm. split; [|split; [|split; [|split; [|split]]]].
  5: { intros Hk. unfold getOrUpdateAndAllowUndefined. now rewrite Hk. }
  5: { intros Hk. unfold getOrUpdateAndAllowUndefined. now rewrite Hk. }
  - apply getOrUpdate_present.
  - intros Hv. split.
    + now apply getOrUpdate_undefined.
    + now apply Map_get_set_same.
  - intros getValues Hall.
    destruct getValues as [|g rest]; simpl; [lia|].
    apply Forall_cons_iff in Hall as [Hg Hrest].
    destruct (isUndefined (Map_get map key)) eqn:E.
    + apply isUndefined_spec in E.
      rewrite getOrUpdate_undefined by assumption.
      rewrite getOrUpdateRepeatedly_present; simpl; [lia|].
      now rewrite Map_get_set_same.
    + rewrite getOrUpdate_present, getOrUpdateRepeatedly_present; simpl; try lia.
      all: intros Hv; rewrite Hv, isUndefined_undefined in E; discriminate.
  - intros stored.
    assert (Hhas : Map_has stored key = true).
    { unfold stored. rewrite Map_has_set by assumption. now rewrite String.eqb_refl. }
    assert (Hget : Map_get stored key = undefined).
    { unfold stored. now apply Map_get_set_same. }
    split; [exact Hhas|]. split.
    + now apply getOrUpdate_undefined.
    + unfold getOrUpdateAndAllowUndefined. now rewrite Hhas, Hget.
Qed.

Example getOrUpdate_twice :
  let m := sampleMap es5Host in
  let g := fun key => VStr key in
  getOrUpdateRepeatedly m "k" [g; g; g]
  = (Map_set m "k" (VStr "k"), ["k"]).
Proof. vm_compute. reflexivity. Qed.

Example getOrUpdate_recomputes_undefined :
  let m := Map_set (sampleMap es6Host) "k" VUndefined in
  snd (getOrUpdate m "k" (fun _ => VUndefined)) = ["k"] /\
  snd (getOrUpdateAndAllowUndefined m "k" (fun _ => VUndefined)) = [].
Proof. vm_compute. split; reflexivity. Qed.

(** C3 at the sample map: the key ["a"] holds a value and the callback is
    not applied. *)
Lemma C3_getOrUpdate_witness :
  getOrUpdate (sampleMap es5Host) "a" (fun key => VStr key)
  = (VNum (Finite 3), sampleMap es5Host, []).
Proof.
  apply (proj1 (@C3_getOrUpdate_spec es5Host Value _ (sampleMap es5Host) "a"
                  (fun key => VStr key) eq_refl)).
  vm_compute. discriminate.
Defined.

(** ** C8: [tryDelete] *)

(** C8. [tryDelete] returns the stored value and removes the key when
    [map.get(key)] is not [undefined]; otherwise it returns [undefined] and
    the map is unchanged, so a key that holds [undefined] is still present
    after the call. *)
Theorem C8_tryDelete_spec
    {host : Host} {T : Type} `{HasUndefined T} (map : Map T) (key : string) :
  isHostMap map = true ->
  (Map_get map key <> undefined ->
     tryDelete map key = (Map_get map key, snd (Map_delete map key)) /\
     Map_has (snd (tryDelete map key)) key = false) /\
  (Map_get map key = undefined -> tryDelete map key = (undefined, map)) /\
  (let stored := Map_set map key undefined in
   tryDelete stored key = (undefined, stored) /\ Map_has stored key = true).
Proof.
  intros Hm. split; [|split].
  - intros Hv. unfold tryDelete.
    destruct (isUndefined (Map_get map key)) eqn:E.
    + apply isUndefined_spec in E. contradiction.
    + simpl. split; auto.
      rewrite Map_has_delete by assumption. now rewrite String.eqb_refl.
  - intros Hv. unfold tryDelete. now rewrite Hv, isUndefined_undefined.
  - intros stored. unfold stored, tryDelete.
    rewrite Map_get_set_same, isUndefined_undefined by assumption.
    split; auto.
    rewrite Map_has_set by assumption. now rewrite String.eqb_refl.
Qed.

Example tryDelete_present :
  tryDelete (sampleMap es5Host) "2"
  = (VNum (Finite 2), createMap (host := es5Host) (Some [("b", VNum (Finite 1)); ("a", VNum (Finite 3)); ("0", VNum (Finite 0))])).
Proof. vm_compute. reflexivity. Qed.

(** C8 at the sample map and a key it does not have. *)
Lemma C8_tryDelete_witness :
  tryDelete (sampleMap es6Host) "zz" = (VUndefined, sampleMap es6Host).
Proof.
  exact (proj1 (proj2 (@C8_tryDelete_spec es6Host Value _ (sampleMap es6Host) "zz" eq_refl))
           eq_refl).
Defined.

(** ** C9: membership sees own keys only *)

Section OwnKeysOnly.
Context {host : Host} {T : Type} `{HasUndefined T}.

(** A [ShimMap] whose record has no prototype keeps such a record, and any
    key it has was there before or was set by one of the calls. *)
Lemma ShimMap_calls_own (cs : list MapCall) (m : ShimMap T) :
  proto (data m) = None ->
  exists m',
    calls (Shim m) cs = Shim m' /\ proto (data m') = None /\
    forall k, Map_has (Shim m') k = true ->
              Map_has (Shim m) k = true \/ exists v, In (CallSet k v) cs.
Proof.
  assert (Hhas : forall (m0 : ShimMap T) k,
             proto (data m0) = None ->
             Map_has (Shim m0) k = defined k (props (data m0))).
  { intros m0 k Hp. simpl. unfold ShimMap_has, has_in, inherits, hasOwnProperty.
    rewrite Hp. apply orb_false_r. }
  unfold calls. revert m. induction cs as [|c cs IH]; intros m Hp.
  - exists m. simpl. auto.
  - assert (Hstep : exists m1, call (Shim m) c = Shim m1 /\ proto (data m1) = None /\
              forall k, Map_has (Shim m1) k = true ->
                        Map_has (Shim m) k = true \/ exists v, c = CallSet k v).
    { destruct c as [key value|key|key|key|].
      - exists (ShimMap_set m key value).
        split; [reflexivity|]. split; [exact Hp|].
        intros k. rewrite !Hhas by auto. simpl. rewrite defined_update.
        destruct (k =? key) eqn:E; simpl; auto.
        apply String.eqb_eq in E; subst. eauto.
      - exists m. auto.
      - exists m. auto.
      - unfold call, Map_delete, ShimMap_delete. destruct (ShimMap_has m key).
        + exists {| data := deleteProp (data m) key |}.
          split; [reflexivity|]. split; [exact Hp|].
          intros k. rewrite !Hhas by auto. simpl. rewrite defined_remove.
          intros Hk. apply andb_true_iff in Hk as [_ Hk]. auto.
        + exists m. auto.
      - exists (ShimMap_clear m).
        split; [reflexivity|]. split; [reflexivity|].
        intros k. rewrite Hhas by reflexivity. discriminate. }
    destruct Hstep as (m1 & Hc & Hp1 & Hk1).
    destruct (IH m1 Hp1) as (m' & Hcs & Hp' & Hk').
    exists m'. simpl. rewrite Hc. repeat split; auto.
    intros k Hk. destruct (Hk' k Hk) as [Hin|[v Hin]].
    + destruct (Hk1 k Hin) as [?|[v ->]]; auto. right. exists v. now left.
    + right. exists v. now right.
Qed.

End OwnKeysOnly.

Lemma ShimStringSet_adds_own {host : Host} (values : list string) (s : ShimStringSet) k :
  proto (setData s) = None ->
  Set_has (fold_left Set_add values (ShimSet s)) k = true ->
  Set_has (ShimSet s) k = true \/ In k values.
Proof.
  revert s. induction values as [|x values IH]; simpl; intros s Hp Hk; auto.
  apply IH in Hk; [|exact Hp].
  destruct Hk as [Hk|Hk]; auto.
  unfold Set_has, ShimStringSet_has, has_in, inherits, hasOwnProperty in *.
  cbn [ShimStringSet_add setData setProp proto props] in Hk.
  rewrite Hp in *. rewrite orb_false_r in *.
  rewrite defined_update in Hk. destruct (k =? x) eqn:E; simpl in Hk; auto.
  apply String.eqb_eq in E. auto.
Qed.

(** C9. The record behind a [ShimMap] or a [ShimStringSet] has no
    prototype, so [has(k)] is [false] on a fresh map or set for every key,
    the names of the members of [Object.prototype] included, and stays
    [false] for as long as the key is not inserted; in a runtime without
    [Map] and [Set] these are the maps and sets [createMap] and [createSet]
    make. *)
Theorem C9_has_sees_own_keys_only
    {host : Host} {T : Type} `{HasUndefined T} (k : string) :
  proto (data (ShimMap_new (T := T))) = None /\
  proto (setData ShimStringSet_new) = None /\
  ShimMap_has (ShimMap_new (T := T)) k = false /\
  ShimStringSet_has ShimStringSet_new k = false /\
  (forall cs : list MapCall,
     Map_has (calls (Shim (ShimMap_new (T := T))) cs) k = true ->
     exists v, In (CallSet k v) cs) /\
  (forall values,
     Set_has (fold_left Set_add values (ShimSet ShimStringSet_new)) k = true ->
     In k values) /\
  (usingNativeMaps = false -> Map_has (createMap (T := T) None) k = false) /\
  (usingNativeSets = false -> Set_has createSet k = false).
Proof.
  repeat split; try reflexivity.
  - intros cs Hk.
    destruct (ShimMap_calls_own cs (ShimMap_new (T := T)) eq_refl) as (m' & Hcs & _ & Hown).
    rewrite Hcs in Hk. destruct (Hown k Hk) as [Hfresh|Hset]; auto. discriminate.
  - intros values Hk.
    apply ShimStringSet_adds_own in Hk as [Hfresh|Hin]; auto; discriminate.
  - intros Hn. unfold createMap, MapCtr_new. now rewrite Hn.
  - intros Hn. unfold createSet. now rewrite Hn.
Qed.

(** In an object literal the same names are found by [in]. *)
Example inherited_names_in_literal :
  has_in "toString" (literal []) = true /\
  has_in "hasOwnProperty" (literal []) = true /\
  has_in "constructor" (literal []) = true /\
  hasProperty (literal []) "toString" = false /\
  Map_has (createMap (host := es5Host) (Some sampleEntries)) "toString" = false /\
  Map_has (createMap (host := es5Host) (Some [("toString", VNum (Finite 1))])) "toString" = true.
Proof. vm_compute. repeat split; reflexivity. Qed.

(** ** C10: [equalOwnProperties] is not symmetric *)

Lemma forInOrder_singleton {host : Host} k : forInOrder [k] = [k].
Proof.
  apply Permutation_length_1_inv, Permutation_sym, forInOrder_Permutation.
Qed.

Lemma forInOrder_nil {host : Host} : forInOrder [] = [].
Proof. apply Permutation_nil, Permutation_sym, forInOrder_Permutation. Qed.

(** C10. With the default comparison, for the record [a] whose only key
    holds [undefined] and the empty record [b], [equalOwnProperties(a, b)]
    is [true] and [equalOwnProperties(b, a)] is [false]: the first loop
    reads [right[key]], which is [undefined] for a missing key, and its
    own-property test never fails. *)
Theorem C10_equalOwnProperties_not_symmetric
    {host : Host} {T : Type} `{HasUndefined T} {SE : StrictEq T} (k : string) :
  let a : MapLike T := setProp createDictionaryModeObject k undefined in
  let b : MapLike T := createDictionaryModeObject in
  equalOwnProperties (twoObjects a b) (HRef 0) (HRef 1) None = true /\
  equalOwnProperties (twoObjects a b) (HRef 1) (HRef 0) None = false.
Proof.
  intros a b. unfold equalOwnProperties, forIn. simpl.
  rewrite forInOrder_singleton, forInOrder_nil. simpl.
  unfold hasOwnProperty, defined, getProp. simpl.
  rewrite String.eqb_refl. simpl.
  assert (strictEq (undefined (T := T)) undefined = true) as ->
    by (rewrite strictEq_undefined; now apply isUndefined_spec).
  split; reflexivity.
Qed.

Example equalOwnProperties_literals :
  let a := literal [("k", VUndefined)] in
  let b := literal [] in
  equalOwnProperties (host := es6Host) (twoObjects a b) (HRef 0) (HRef 1) None = true /\
  equalOwnProperties (host := es6Host) (twoObjects a b) (HRef 1) (HRef 0) None = false /\
  equalOwnProperties (host := es6Host) (twoObjects a a) (HRef 0) (HRef 1) None = true.
Proof. vm_compute. repeat split; reflexivity. Qed.

(** ** C4: a multi-map holds no empty array *)

Section MultiMapFacts.
Context {host : Host} {V : Type} `{ItemEq V}.
Implicit Types (arrays : Arrays V) (map : Map (option Ref)) (key : string) (value : V).

Lemma arrayUnder_Some arrays map k values :
  arrayUnder arrays map k = Some values <->
  exists r, Map_get map k = Some r /\ arrayAt arrays r = values.
Proof.
  unfold arrayUnder. destruct (Map_get map k) as [r|]; simpl; split.
  - intros [= <-]. eauto.
  - intros (r' & [= <-] & <-). reflexivity.
  - discriminate.
  - intros (r & Hr & _). discriminate.
Qed.

Lemma arrayAt_setArray arrays values elements r :
  arrayAt (setArray arrays values elements) r
  = if (r =? values)%nat then elements else arrayAt arrays r.
Proof. reflexivity. Qed.

Lemma multiMapAdd_kept arrays map key value :
  kept arrays map ->
  kept (fst (snd (multiMapAdd arrays map key value)))
       (snd (snd (multiMapAdd arrays map key value))).
Proof.
  intros (Hm & Hal & Hun & Hp). unfold multiMapAdd, setAndReturn.
  destruct (Map_get map key) as [values|] eqn:Eg; cbn [fst snd newArray].
  - repeat split; auto.
    intros k Hk. destruct (Hp k Hk) as (x & xs & Hx).
    apply arrayUnder_Some in Hx as (r & Hr & Hx).
    destruct (Nat.eqb_spec r values) as [->|Hne].
    + exists x, (xs ++ [value]). apply arrayUnder_Some. exists values. split; auto.
      unfold Array_push. rewrite arrayAt_setArray, Nat.eqb_refl, Hx. reflexivity.
    + exists x, xs. apply arrayUnder_Some. exists r. split; auto.
      unfold Array_push. rewrite arrayAt_setArray.
      apply Nat.eqb_neq in Hne. now rewrite Hne.
  - assert (Hfresh : forall k, Map_get map k <> Some (nextArray arrays)).
    { intros k Hk. apply Hal in Hk. lia. }
    split; [now apply Map_set_isHostMap|]. split; [|split].
    + intros k r. cbn [nextArray]. destruct (string_dec k key) as [->|Hne].
      * rewrite Map_get_set_same by assumption. intros [= <-]. lia.
      * rewrite Map_get_set_other by assumption. intros Hr. apply Hal in Hr. lia.
    + intros k k' r.
      destruct (string_dec k key) as [->|Hne], (string_dec k' key) as [->|Hne'];
        auto;
        rewrite ?Map_get_set_same, ?Map_get_set_other by assumption.
      * intros [= <-] Hk'. now apply Hfresh in Hk'.
      * intros Hk [= <-]. now apply Hfresh in Hk.
      * apply Hun.
    + intros k. destruct (string_dec k key) as [->|Hne].
      * intros _. exists value, []. apply arrayUnder_Some.
        exists (nextArray arrays). rewrite Map_get_set_same by assumption.
        split; auto. cbn [arrayAt]. now rewrite Nat.eqb_refl.
      * rewrite Map_has_set by assumption.
        apply String.eqb_neq in Hne as Hne'. rewrite Hne'. cbn [orb].
        intros Hk. destruct (Hp k Hk) as (x & xs & Hx).
        apply arrayUnder_Some in Hx as (r & Hr & Hx).
        exists x, xs. apply arrayUnder_Some. exists r.
        rewrite Map_get_set_other by assumption. split; auto.
        cbn [arrayAt]. destruct (Nat.eqb_spec r (nextArray arrays)) as [->|_]; auto.
        now apply Hfresh in Hr.
Qed.

Lemma multiMapRemove_kept arrays map key value :
  kept arrays map ->
  kept (fst (multiMapRemove arrays map key value))
       (snd (multiMapRemove arrays map key value)).
Proof.
  intros (Hm & Hal & Hun & Hp). unfold multiMapRemove.
  destruct (Map_get map key) as [values|] eqn:Eg; [|repeat split; auto].
  rewrite arrayAt_setArray, Nat.eqb_refl.
  assert (Hothers : forall k r, k <> key -> Map_get map k = Some r ->
            arrayAt (setArray arrays values
                       (unorderedRemoveItem (arrayAt arrays values) value)) r
            = arrayAt arrays r).
  { intros k r Hne Hr. rewrite arrayAt_setArray.
    destruct (Nat.eqb_spec r values) as [->|_]; auto.
    now destruct Hne; apply (Hun k key values). }
  destruct (unorderedRemoveItem (arrayAt arrays values) value) as [|x xs] eqn:Er;
    cbn [List.length Nat.eqb fst snd].
  - split; [now apply Map_delete_isHostMap|]. split; [|split].
    + intros k r. cbn [nextArray setArray]. destruct (string_dec k key) as [->|Hne].
      * rewrite Map_get_delete_same by assumption. discriminate.
      * rewrite Map_get_delete_other by assumption. apply Hal.
    + intros k k' r.
      destruct (string_dec k key) as [->|Hne];
        [rewrite Map_get_delete_same by assumption; discriminate|].
      destruct (string_dec k' key) as [->|Hne'];
        [rewrite Map_get_delete_same by assumption; discriminate|].
      rewrite !Map_get_delete_other by assumption. apply Hun.
    + intros k. rewrite Map_has_delete by assumption.
      intros Hk. apply andb_true_iff in Hk as [Hne Hk].
      apply negb_true_iff, String.eqb_neq in Hne.
      destruct (Hp k Hk) as (y & ys & Hy).
      apply arrayUnder_Some in Hy as (r & Hr & Hy).
      exists y, ys. apply arrayUnder_Some. exists r.
      rewrite Map_get_delete_other by assumption. split; auto.
      now rewrite (Hothers k r Hne Hr).
  - repeat split; auto.
    intros k Hk. destruct (string_dec k key) as [->|Hne].
    + exists x, xs. apply arrayUnder_Some. exists values. split; auto.
      now rewrite arrayAt_setArray, Nat.eqb_refl.
    + destruct (Hp k Hk) as (y & ys & Hy).
      apply arrayUnder_Some in Hy as (r & Hr & Hy).
      exists y, ys. apply arrayUnder_Some. exists r. split; auto.
      now rewrite (Hothers k r Hne Hr).
Qed.

Lemma multiMapCalls_kept (cs : list MultiMapCall) arrays map :
  kept arrays map ->
  kept (fst (fold_left multiMapCall cs (arrays, map)))
       (snd (fold_left multiMapCall cs (arrays, map))).
Proof.
  revert arrays map. induction cs as [|c cs IH]; intros arrays map Hk; auto.
  cbn [fold_left multiMapCall]. destruct c as [key value|key value].
  - pose proof (multiMapAdd_kept key value Hk) as Hk'.
    destruct (multiMapAdd arrays map key value) as [values [arrays' map']].
    now apply IH.
  - pose proof (multiMapRemove_kept key value Hk) as Hk'.
    destruct (multiMapRemove arrays map key value) as [arrays' map'].
    now apply IH.
Qed.

Lemma createMap_kept :
  kept (noArrays (V := V)) (createMap (T := option Ref) None).
Proof.
  assert (Hnone : forall k, Map_get (createMap (T := option Ref) None) k = None).
  { intros k. rewrite Map_get_absent; [reflexivity | apply createMap_isHostMap |].
    rewrite Map_has_defined by apply createMap_isHostMap.
    unfold createMap, MapCtr_new. destruct usingNativeMaps; reflexivity. }
  split; [apply createMap_isHostMap|]. split; [|split].
  - intros k r Hr. rewrite Hnone in Hr. discriminate.
  - intros k k' r Hr. rewrite Hnone in Hr. discriminate.
  - intros k Hk. rewrite Map_has_defined in Hk by apply createMap_isHostMap.
    unfold createMap, MapCtr_new in Hk. destruct usingNativeMaps; discriminate.
Qed.

(** What the induction gives for a multi-map built from the empty map. *)
Lemma multiMapCalls_pruned (cs : list MultiMapCall) :
  isHostMap (snd (fold_left multiMapCall cs (noArrays, createMap None))) = true /\
  pruned (fst (fold_left multiMapCall cs (noArrays, createMap None)))
         (snd (fold_left multiMapCall cs (noArrays, createMap None))).
Proof.
  destruct (multiMapCalls_kept cs createMap_kept) as (Hm & _ & _ & Hp). auto.
Qed.

Lemma unorderedRemoveItem_single value : unorderedRemoveItem [value] value = [].
Proof.
  unfold unorderedRemoveItem. simpl.
  assert (itemEq value value = true) as -> by now apply itemEq_spec.
  reflexivity.
Qed.

End MultiMapFacts.

(** C4. On a multi-map built from the empty map by calls of [multiMapAdd]
    and [multiMapRemove] no key holds an empty array: a key the map has
    holds an array with an element.  In particular, adding a value under a
    key the map does not have and then removing that value leaves the key
    absent. *)
Theorem C4_multiMap_no_empty_array
    {host : Host} {V : Type} `{ItemEq V}
    (cs : list MultiMapCall) (k : string) (v : V) :
  let state := fold_left multiMapCall cs (noArrays, createMap None) in
  let arrays := fst state in
  let map := snd state in
  arrayUnder arrays map k <> Some [] /\
  (Map_has map k = true -> exists x xs, arrayUnder arrays map k = Some (x :: xs)) /\
  (Map_has map k = false ->
   let added := snd (multiMapAdd arrays map k v) in
   Map_has (snd (multiMapRemove (fst added) (snd added) k v)) k = false).
Proof.
  intros state arrays map.
  destruct (multiMapCalls_pruned cs) as [Hm Hp]. fold state arrays map in Hm, Hp.
  clearbody arrays map. clear state.
  split; [|split].
  - intros Hget. destruct (Map_has map k) eqn:Hk.
    + destruct (Hp k Hk) as (x & xs & Hx). congruence.
    + unfold arrayUnder in Hget. rewrite (Map_get_absent _ _ Hm Hk) in Hget.
      discriminate.
  - apply Hp.
  - intros Hk added. unfold added, multiMapAdd, setAndReturn.
    rewrite (Map_get_absent _ _ Hm Hk). cbn [undefined ArrayOrUndefined newArray fst snd].
    unfold multiMapRemove. rewrite Map_get_set_same by assumption.
    rewrite arrayAt_setArray, Nat.eqb_refl. cbn [arrayAt]. rewrite Nat.eqb_refl.
    rewrite unorderedRemoveItem_single. cbn [List.length Nat.eqb snd].
    rewrite Map_has_delete by auto using Map_set_isHostMap.
    now rewrite String.eqb_refl.
Qed.

(** The scenario of the spec: add 1 and 2 under ["k"], remove 1, then
    remove 2. *)
Example multiMap_scenario :
  let m0 := (noArrays, createMap (host := es5Host) (T := option Ref) None) in
  let m1 := multiMapCall m0 (CallAdd "k" (VNum (Finite 1))) in
  let m2 := multiMapCall m1 (CallAdd "k" (VNum (Finite 2))) in
  let m3 := multiMapCall m2 (CallRemove "k" (VNum (Finite 1))) in
  let m4 := multiMapCall m3 (CallRemove "k" (VNum (Finite 2))) in
  arrayUnder (fst m2) (snd m2) "k" = Some [VNum (Finite 1); VNum (Finite 2)] /\
  arrayUnder (fst m3) (snd m3) "k" = Some [VNum (Finite 2)] /\
  Map_has (snd m4) "k" = false /\ snd m4 = snd m0.
Proof. vm_compute. repeat split; reflexivity. Qed.

(** ** Enumeration of a record and of a map *)

Lemma existsb_false {A : Type} (f : A -> bool) (l : list A) :
  existsb f l = false <-> forall x, In x l -> f x = false.
Proof.
  induction l as [|a l IH]; simpl.
  - split; [intros _ x [] | reflexivity].
  - rewrite orb_false_iff, IH. split.
    + intros [Ha Hl] x [<-|Hx]; auto.
    + intros Hall. split; auto.
Qed.

Lemma lookup_defined {T : Type} k (ps : list (string * T)) :
  defined k ps = true <-> exists v, lookup k ps = Some v.
Proof.
  unfold defined. destruct (lookup k ps) as [v|].
  - split; eauto.
  - split; [discriminate | intros [v Hv]; discriminate].
Qed.

Section Enumeration.
Context {host : Host} {T : Type} `{HasUndefined T}.
Implicit Types (map : Map T) (o : MapLike T) (k key : string) (v value : T).

Lemma forIn_In o k : In k (forIn o) <-> In k (List.map fst (props o)).
Proof.
  unfold forIn. split; apply Permutation_in;
    [|apply Permutation_sym]; apply forInOrder_Permutation.
Qed.

Lemma enumerate_keys o : List.map fst (enumerate o) = forIn o.
Proof.
  unfold enumerate. rewrite map_map. simpl. apply map_id.
Qed.

Lemma enumerate_unique o :
  uniqueKeys (props o) = true -> NoDup (List.map fst (enumerate o)).
Proof.
  intros Hu. rewrite enumerate_keys. unfold forIn.
  eapply Permutation_NoDup.
  - apply Permutation_sym, forInOrder_Permutation.
  - now apply uniqueKeys_NoDup.
Qed.

Lemma getProp_own o k :
  proto o = None ->
  getProp o k = match lookup k (props o) with Some v => v | None => undefined end.
Proof. intros Hp. unfold getProp. now rewrite Hp. Qed.

Lemma enumerate_In o k v :
  proto o = None ->
  In (k, v) (enumerate o) <-> lookup k (props o) = Some v.
Proof.
  intros Hp. unfold enumerate. rewrite in_map_iff. split.
  - intros (key & [= -> <-] & Hin).
    apply forIn_In, defined_In, lookup_defined in Hin as [v Hv].
    now rewrite getProp_own, Hv.
  - intros Hv. exists k. split.
    + now rewrite getProp_own, Hv.
    + apply forIn_In, defined_In, lookup_defined. eauto.
Qed.

Lemma iterationOrder_In map k v :
  isHostMap map = true ->
  In (k, v) (iterationOrder map) <-> lookup k (entriesOf map) = Some v.
Proof.
  intros Hm. destruct map as [m|m].
  - rewrite iterationOrder_Native. simpl. symmetry.
    apply lookup_In_unique, uniqueKeys_NoDup. now apply isHostMap_unique in Hm.
  - rewrite iterationOrder_Shim. apply isHostMap_Shim in Hm as [_ Hp].
    now apply enumerate_In.
Qed.

Lemma iterationOrder_unique map :
  isHostMap map = true -> NoDup (List.map fst (iterationOrder map)).
Proof.
  intros Hm. pose proof (isHostMap_unique _ Hm) as Hu. destruct map as [m|m].
  - rewrite iterationOrder_Native. now apply uniqueKeys_NoDup.
  - rewrite iterationOrder_Shim. now apply enumerate_unique.
Qed.

Lemma Map_has_lookup map k :
  isHostMap map = true ->
  Map_has map k = true <-> exists v, lookup k (entriesOf map) = Some v.
Proof. intros Hm. rewrite Map_has_defined by assumption. apply lookup_defined. Qed.

Lemma Map_get_of_lookup map k v :
  isHostMap map = true -> lookup k (entriesOf map) = Some v -> Map_get map k = v.
Proof. intros Hm Hv. now rewrite Map_get_lookup, Hv. Qed.

(** *** [someInMap] and [someKeyInMap] *)

Lemma someInIterator_existsb {A : Type} (it : Iterator A) (p : A -> bool) :
  someInIterator it p = existsb p it.
Proof.
  induction it as [|x it IH]; simpl; auto. now destruct (p x).
Qed.

Lemma forEach_found (p : T -> string -> bool) (es : list (string * T)) (found : bool) :
  fold_left (fun found kv => found || p (snd kv) (fst kv)) es found
  = found || existsb (fun kv => p (snd kv) (fst kv)) es.
Proof.
  revert found. induction es as [|e es IH]; simpl; intros found.
  - now rewrite orb_false_r.
  - rewrite IH. now rewrite orb_assoc.
Qed.

Lemma someInMap_existsb map (p : T -> string -> bool) :
  isHostMap map = true ->
  someInMap map p = Some (existsb (fun kv => p (snd kv) (fst kv)) (iterationOrder map)).
Proof.
  intros Hm. unfold someInMap. destruct usingES6NativeMaps eqn:Es.
  - destruct (isHostMap_ES6 map Hm Es) as [m ->]. unfold asES6Map, option_map.
    now rewrite someInIterator_existsb, iterationOrder_Native.
  - now rewrite Map_forEach_iterationOrder, forEach_found.
Qed.

Lemma someKeyInMap_existsb map (p : string -> bool) :
  isHostMap map = true ->
  someKeyInMap map p = Some (existsb (fun kv => p (fst kv)) (iterationOrder map)).
Proof.
  intros Hm. unfold someKeyInMap. destruct usingES6NativeMaps eqn:Es.
  - destruct (isHostMap_ES6 map Hm Es) as [m ->]. unfold asES6Map, option_map.
    rewrite someInIterator_existsb, iterationOrder_Native.
    unfold NativeMap_keys. f_equal.
    induction (mapData m) as [|e es IH]; simpl; auto. now rewrite IH.
  - now rewrite someInMap_existsb.
Qed.

(** The entries [forEach] visits are the keys the map has, each with the
    value [get] returns. *)
Lemma iterationOrder_has_get map k v :
  isHostMap map = true ->
  In (k, v) (iterationOrder map) <-> Map_has map k = true /\ Map_get map k = v.
Proof.
  intros Hm. rewrite iterationOrder_In by assumption. split.
  - intros Hv. split.
    + apply Map_has_lookup; eauto.
    + now apply Map_get_of_lookup.
  - intros [Hk Hv]. apply Map_has_lookup in Hk as [v' Hv']; auto.
    rewrite (Map_get_of_lookup map k Hm Hv') in Hv. congruence.
Qed.

Lemma iterationOrder_keys map k :
  isHostMap map = true ->
  In k (List.map fst (iterationOrder map)) <-> Map_has map k = true.
Proof.
  intros Hm. rewrite in_map_iff. split.
  - intros ([k' v] & <- & Hin). now apply iterationOrder_has_get in Hin.
  - intros Hk. exists (k, Map_get map k). split; auto.
    now apply iterationOrder_has_get.
Qed.

End Enumeration.

(** ** C2: [findInMap] over the entries of the map *)

(** C2. [findInMap(map, f)] goes through the entries of the map, the keys
    the map has, each once and with the value [get] returns for it, in
    the order in which [forEach] visits them.  It returns the first result
    of [f(value, key)] that is not [undefined], and [undefined] when there
    is none: when the map is empty or [f] returns [undefined] on every
    entry.  [f] is applied to the entries up to and including that first one
    and to no later entry.  This holds in both branches: the ES6 branch
    leaves its loop there, the [forEach] branch guards the application of
    [f]. *)
Theorem C2_findInMap_first_result
    {host : Host} {T U : Type} {HT : HasUndefined T} {HU : HasUndefined U}
    (map : Map T) (f : T -> string -> U) :
  isHostMap map = true ->
  exists es r applied,
    es = iterationOrder map /\
    NoDup (List.map fst es) /\
    (forall k v, In (k, v) es <-> Map_has map k = true /\ Map_get map k = v) /\
    findInMap map f = Some (r, applied) /\
    firstResult f es r applied /\
    (r = undefined <->
     forall k, Map_has map k = true -> f (Map_get map k) k = undefined) /\
    ((forall k, Map_has map k = false) -> r = undefined /\ applied = []).
Proof.
  intros Hm.
  assert (Hentries : forall k v, In (k, v) (iterationOrder map) <->
                                 Map_has map k = true /\ Map_get map k = v)
    by (intros k v; now apply iterationOrder_has_get).
  assert (Hfound : exists r applied,
            findInMap map f = Some (r, applied) /\
            firstResult f (iterationOrder map) r applied).
  { unfold findInMap. destruct usingES6NativeMaps eqn:Es.
    - destruct (isHostMap_ES6 map Hm Es) as [m ->]. unfold asES6Map, option_map.
      exists (fst (findInMap_iterate (NativeMap_entries m) f)),
             (snd (findInMap_iterate (NativeMap_entries m) f)).
      split.
      + now destruct (findInMap_iterate (NativeMap_entries m) f).
      + rewrite iterationOrder_Native. apply findInMap_iterate_firstResult.
    - exists (fst (findInMap_iterate (iterationOrder map) f)),
             (snd (findInMap_iterate (iterationOrder map) f)).
      split.
      + rewrite findInMap_forEach_iterate.
        now destruct (findInMap_iterate (iterationOrder map) f).
      + apply findInMap_iterate_firstResult. }
  destruct Hfound as (r & applied & Hfind & Hfirst).
  exists (iterationOrder map), r, applied.
  split; [reflexivity|]. split; [now apply iterationOrder_unique|].
  split; [exact Hentries|]. split; [exact Hfind|]. split; [exact Hfirst|].
  split.
  - destruct Hfirst as [(before & key & value & after & Hes & _ & Hf & -> & _)
                       | (Hall & -> & _)].
    + assert (Hin : In (key, value) (iterationOrder map))
        by (rewrite Hes; apply in_elt).
      apply Hentries in Hin as [Hk Hv]. split.
      * intros Hr. now destruct Hf.
      * intros Hnone. destruct Hf. rewrite <- Hv. now apply Hnone.
    + split; auto. intros _ k Hk. apply Hall. now apply Hentries.
  - intros Hnone.
    assert (Hnil : iterationOrder map = []).
    { destruct (iterationOrder map) as [|[k v] es]; auto.
      destruct (proj1 (Hentries k v) (or_introl eq_refl)) as [Hk _].
      rewrite Hnone in Hk. discriminate. }
    rewrite Hnil in Hfirst.
    destruct Hfirst as [(before & key & value & after & Hes & _)
                       | (_ & -> & ->)]; auto.
    now destruct before.
Qed.

(** C2 at the sample map in a runtime that uses the shim. *)
Lemma C2_findInMap_witness :
  exists es r applied,
    es = iterationOrder (host := es5Host) (sampleMap es5Host) /\
    NoDup (List.map fst es) /\
    (forall k v, In (k, v) es <->
                 Map_has (sampleMap es5Host) k = true /\ Map_get (sampleMap es5Host) k = v) /\
    findInMap (host := es5Host) (sampleMap es5Host) keyOfLarge = Some (r, applied) /\
    firstResult keyOfLarge es r applied /\
    (r = undefined <->
     forall k, Map_has (sampleMap es5Host) k = true ->
               keyOfLarge (Map_get (sampleMap es5Host) k) k = undefined) /\
    ((forall k, Map_has (sampleMap es5Host) k = false) -> r = undefined /\ applied = []).
Proof.
  apply (@C2_findInMap_first_result es5Host Value Value _ _ (sampleMap es5Host) keyOfLarge).
  reflexivity.
Defined.

(** ** C5: [mapsAreEqual] *)

Section MapsAreEqual.
Context {host : Host} {T : Type} `{HasUndefined T} {SE : StrictEq T}.
Variable valuesAreEqual : option (T -> T -> bool).

(** The comparison proper, once both arguments are maps and are not the
    same object. *)
Lemma mapsAreEqual_distinct (heap : Heap (Map T)) (l r : Ref) :
  isHostMap (heap l) = true -> isHostMap (heap r) = true -> l <> r ->
  exists b,
    mapsAreEqual heap (HRef l) (HRef r) valuesAreEqual = Some b /\
    (b = true <->
     sameKeys (heap l) (heap r) /\ sameValues valuesAreEqual (heap l) (heap r)).
Proof.
  intros Hl Hr Hne. unfold mapsAreEqual. simpl.
  apply Nat.eqb_neq in Hne. rewrite Hne.
  rewrite someInMap_existsb, someKeyInMap_existsb by assumption.
  set (a := heap l) in *. set (b := heap r) in *.
  match goal with
  | |- context [if existsb ?p (iterationOrder a) then _ else _] => set (inLeft := existsb p (iterationOrder a))
  end.
  match goal with
  | |- context [negb (existsb ?p (iterationOrder b))] => set (inRight := existsb p (iterationOrder b))
  end.
  assert (Hleft : inLeft = false <->
            forall k v, lookup k (entriesOf a) = Some v ->
                        Map_has b k = true /\
                        equalWith valuesAreEqual v (Map_get b k) = true).
  { unfold inLeft. rewrite existsb_false. split.
    - intros Hall k v Hv. apply (iterationOrder_In a k v Hl) in Hv.
      specialize (Hall (k, v) Hv). simpl in Hall.
      destruct (Map_has b k); simpl in Hall; [|discriminate].
      split; auto. now apply negb_false_iff in Hall.
    - intros Hall [k v] Hin. apply (iterationOrder_In a k v Hl) in Hin.
      destruct (Hall k v Hin) as [Hk Hv]. simpl. now rewrite Hk, Hv. }
  assert (Hright : inRight = false <->
            forall k v, lookup k (entriesOf b) = Some v -> Map_has a k = true).
  { unfold inRight. rewrite existsb_false. split.
    - intros Hall k v Hv. apply (iterationOrder_In b k v Hr) in Hv.
      specialize (Hall (k, v) Hv). simpl in Hall. now apply negb_false_iff in Hall.
    - intros Hall [k v] Hin. apply (iterationOrder_In b k v Hr) in Hin.
      simpl. now rewrite (Hall k v Hin). }
  exists (if inLeft then false else negb inRight).
  split; [now destruct inLeft|].
  assert (Hb : (if inLeft then false else negb inRight) = true <->
               inLeft = false /\ inRight = false).
  { destruct inLeft, inRight; simpl; intuition congruence. }
  rewrite Hb, Hleft, Hright. clear Hb Hleft Hright inLeft inRight.
  unfold sameKeys, sameValues. split.
  - intros [HA HB]. split.
    + intros k. destruct (Map_has a k) eqn:Ha.
      * apply Map_has_lookup in Ha as [v Hv]; auto. symmetry. now apply (HA k v).
      * destruct (Map_has b k) eqn:Hbk; auto.
        apply Map_has_lookup in Hbk as [v Hv]; auto.
        rewrite (HB k v Hv) in Ha. discriminate.
    + intros k Ha Hbk. apply Map_has_lookup in Ha as [v Hv]; auto.
      rewrite (Map_get_of_lookup a k Hl Hv). now apply (HA k v).
  - intros [Hkeys Hvalues]. split.
    + intros k v Hv.
      assert (Ha : Map_has a k = true) by (apply Map_has_lookup; eauto).
      assert (Hbk : Map_has b k = true) by now rewrite <- Hkeys.
      split; auto. rewrite <- (Map_get_of_lookup a k Hl Hv). now apply Hvalues.
    + intros k v Hv. rewrite Hkeys. apply Map_has_lookup; eauto.
Qed.

End MapsAreEqual.


Example mapsAreEqual_examples :
  let heap := twoObjects (sampleMap es6Host) (reordered es6Host) in
  mapsAreEqual (host := es6Host) heap (HRef 0) (HRef 1) None = Some true /\
  mapsAreEqual (host := es6Host) heap (HRef 0) (HRef 1) (Some (fun _ _ => false)) = Some false /\
  mapsAreEqual (host := es6Host) heap (HRef 0) (HRef 0) (Some (fun _ _ => false)) = Some true /\
  mapsAreEqual (host := es6Host) heap HNull (HRef 1) None = Some false /\
  mapsAreEqual (host := es6Host) heap (HRef 0) HUndefined None = Some false /\
  mapsAreEqual (host := es6Host) heap HUndefined HUndefined None = Some true /\
  mapsAreEqual (host := es6Host) heap HNull HUndefined None = Some false.
Proof. vm_compute. repeat split; reflexivity. Qed.

Example mapsAreEqual_shim :
  let smaller := snd (Map_delete (sampleMap es5Host) "a") in
  mapsAreEqual (host := es5Host) (twoObjects (sampleMap es5Host) (reordered es5Host))
    (HRef 0) (HRef 1) None = Some true /\
  mapsAreEqual (host := es5Host) (twoObjects (sampleMap es5Host) smaller)
    (HRef 0) (HRef 1) None = Some false /\
  mapsAreEqual (host := es5Host) (twoObjects smaller (sampleMap es5Host))
    (HRef 0) (HRef 1) None = Some false.
Proof. vm_compute. repeat split; reflexivity. Qed.


(** ** C6: from a map to a record and back *)

Section RoundTrip.
Context {host : Host} {T : Type} `{HasUndefined T}.
Implicit Types (map : Map T) (o : MapLike T) (k key : string) (v value : T).

Lemma lookup_app k (ps qs : list (string * T)) :
  lookup k (ps ++ qs) = match lookup k ps with Some v => Some v | None => lookup k qs end.
Proof.
  induction ps as [|[k' v'] ps IH]; simpl; auto.
  now destruct (k =? k').
Qed.

(** Assigning a list of pairs in turn: the last assignment to a key wins. *)
Lemma lookup_assignments k (es ps : list (string * T)) :
  lookup k (fold_left (fun ps kv => update (fst kv) (snd kv) ps) es ps)
  = match lookup k (rev es) with Some v => Some v | None => lookup k ps end.
Proof.
  revert ps. induction es as [|[k' v'] es IH]; simpl; intros ps; auto.
  rewrite IH, lookup_app. destruct (lookup k (rev es)); auto.
  simpl. destruct (k =? k') eqn:E.
  - apply String.eqb_eq in E; subst. apply lookup_update_same.
  - apply String.eqb_neq in E. now apply lookup_update_other.
Qed.


(** With distinct keys the order of the assignments does not matter. *)
Lemma lookup_rev_unique k (es : list (string * T)) :
  NoDup (List.map fst es) -> lookup k (rev es) = lookup k es.
Proof.
  intros Hu.
  assert (Hr : NoDup (List.map fst (rev es))) by (rewrite map_rev; now apply NoDup_rev).
  destruct (lookup k es) as [v|] eqn:E.
  - apply lookup_In_unique; auto. apply in_rev. rewrite rev_involutive.
    now apply lookup_In.
  - destruct (lookup k (rev es)) as [v|] eqn:E'; auto.
    apply lookup_In, in_rev in E'. apply lookup_In_unique in E'; auto. congruence.
Qed.

Lemma lookup_ext_In k (es fs : list (string * T)) :
  NoDup (List.map fst es) ->
  (forall v, In (k, v) es <-> lookup k fs = Some v) ->
  lookup k es = lookup k fs.
Proof.
  intros Hu Hin. destruct (lookup k fs) as [v|] eqn:E.
  - apply lookup_In_unique; auto. now apply Hin.
  - destruct (lookup k es) as [v|] eqn:E'; auto.
    apply lookup_In, Hin in E'. discriminate.
Qed.



Lemma setEntries (es : list (string * T)) map :
  isHostMap map = true ->
  isHostMap (fold_left (fun map kv => Map_set map (fst kv) (snd kv)) es map) = true /\
  entriesOf (fold_left (fun map kv => Map_set map (fst kv) (snd kv)) es map)
  = fold_left (fun ps kv => update (fst kv) (snd kv) ps) es (entriesOf map).
Proof.
  revert map. induction es as [|e es IH]; simpl; intros map Hm; auto.
  destruct (IH (Map_set map (fst e) (snd e))) as [Hm' ->].
  - now apply Map_set_isHostMap.
  - split; auto. now rewrite entriesOf_set.
Qed.




End RoundTrip.


Example roundTrip_shim :
  mapOfMapLike (host := es5Host) (mapLikeOfMap (host := es5Host) (sampleMap es5Host))
  = createMap (host := es5Host)
      (Some [("0", VNum (Finite 0)); ("2", VNum (Finite 2)); ("b", VNum (Finite 1)); ("a", VNum (Finite 3))]) /\
  mapLikeOfMap (host := es6Host) (sampleMap es6Host)
  = {| proto := None; props := sampleEntries |}.
Proof. vm_compute. split; reflexivity. Qed.



(** * Further properties of the namespace *)

(** ** Assigning a series of pairs *)

Lemma fold_left_map_pairs {A B C : Type} (f : A -> B -> A) (g : C -> B) (l : list C) (a : A) :
  fold_left f (List.map g l) a = fold_left (fun a x => f a (g x)) l a.
Proof. revert a. induction l as [|x l IH]; simpl; intros a; auto. Qed.

Section LastWins.
Context {T : Type}.
Implicit Types (k : string) (v : T) (ps : list (string * T)).

Lemma lookup_None k ps : lookup k ps = None <-> ~ In k (List.map fst ps).
Proof.
  rewrite <- defined_In. unfold defined.
  destruct (lookup k ps); intuition congruence.
Qed.

Lemma lookup_last_wins k v (before after : list (string * T)) :
  ~ In k (List.map fst after) ->
  lookup k (rev (before ++ (k, v) :: after)) = Some v.
Proof.
  intros Hk. rewrite rev_app_distr. simpl. rewrite <- app_assoc, lookup_app.
  assert (lookup k (rev after) = None) as ->.
  { apply lookup_None. rewrite map_rev, <- in_rev. exact Hk. }
  simpl. now rewrite String.eqb_refl.
Qed.

Lemma length_update k v ps :
  List.length (update k v ps)
  = if defined k ps then List.length ps else S (List.length ps).
Proof.
  unfold defined. induction ps as [|[k' v'] ps IH]; simpl; auto.
  destruct (k =? k'); simpl; auto.
  rewrite IH. now destruct (lookup k ps).
Qed.

Lemma length_remove k ps :
  uniqueKeys ps = true ->
  List.length (remove k ps)
  = if defined k ps then pred (List.length ps) else List.length ps.
Proof.
  unfold defined. induction ps as [|[k' v'] ps IH]; simpl; auto.
  intros Hu. apply andb_true_iff in Hu as [Hk Hu].
  destruct (k =? k') eqn:E; simpl.
  - apply String.eqb_eq in E; subst k'. apply negb_true_iff in Hk.
    rewrite remove_absent; auto.
  - rewrite IH by assumption. destruct (lookup k ps) eqn:El; auto.
    destruct ps; simpl in *; [discriminate|reflexivity].
Qed.

Lemma update_fresh k v ps :
  ~ In k (List.map fst ps) -> update k v ps = ps ++ [(k, v)].
Proof.
  induction ps as [|[k' v'] ps IH]; simpl; auto.
  intros Hk. destruct (k =? k') eqn:E.
  - apply String.eqb_eq in E. subst. elim Hk. now left.
  - f_equal. apply IH. intros Hin. apply Hk. now right.
Qed.

(** Assigning pairs with new, distinct keys appends them in order. *)
Lemma assignments_fresh (es ps : list (string * T)) :
  NoDup (List.map fst (ps ++ es)) ->
  fold_left (fun ps kv => update (fst kv) (snd kv) ps) es ps = ps ++ es.
Proof.
  revert ps. induction es as [|[k v] es IH]; simpl; intros ps Hnd.
  - now rewrite app_nil_r.
  - assert (Hk : ~ In k (List.map fst ps)).
    { rewrite map_app in Hnd. simpl in Hnd. apply NoDup_remove_2 in Hnd.
      intros Hin. apply Hnd. apply in_or_app. now left. }
    rewrite update_fresh by assumption.
    rewrite IH; rewrite <- app_assoc; auto.
Qed.

End LastWins.

Section SetAll.
Context {host : Host} {T : Type} `{HasUndefined T}.
Implicit Types (map : Map T) (k key : string) (v value : T).

(** Setting a series of pairs on a map: under each key the last pair for
    that key, and what the map held under the other keys. *)
Lemma Map_set_all (pairs : list (string * T)) map :
  isHostMap map = true ->
  isHostMap (fold_left (fun map kv => Map_set map (fst kv) (snd kv)) pairs map) = true /\
  forall k,
    lookup k (entriesOf (fold_left (fun map kv => Map_set map (fst kv) (snd kv)) pairs map))
    = match lookup k (rev pairs) with
      | Some v => Some v
      | None => lookup k (entriesOf map)
      end.
Proof.
  intros Hm. destruct (setEntries pairs map Hm) as [Hm' He]. split; auto.
  intros k. now rewrite He, lookup_assignments.
Qed.

Lemma Map_has_set_all (pairs : list (string * T)) map k :
  isHostMap map = true ->
  Map_has (fold_left (fun map kv => Map_set map (fst kv) (snd kv)) pairs map) k = true
  <-> In k (List.map fst pairs) \/ Map_has map k = true.
Proof.
  intros Hm. destruct (Map_set_all pairs map Hm) as [Hm' Hl].
  rewrite !Map_has_defined by assumption. unfold defined. rewrite Hl.
  destruct (lookup k (rev pairs)) as [v|] eqn:E.
  - split; auto. intros _. left.
    apply lookup_In, in_rev in E. now apply (in_map fst) in E.
  - apply lookup_None in E. rewrite map_rev, <- in_rev in E.
    destruct (lookup k (entriesOf map)); intuition congruence.
Qed.

Lemma Map_get_set_all_last (before after : list (string * T)) map k v :
  isHostMap map = true -> ~ In k (List.map fst after) ->
  Map_get
    (fold_left (fun map kv => Map_set map (fst kv) (snd kv)) (before ++ (k, v) :: after) map)
    k = v.
Proof.
  intros Hm Hk. destruct (Map_set_all (before ++ (k, v) :: after) map Hm) as [Hm' Hl].
  rewrite Map_get_lookup by assumption. now rewrite Hl, lookup_last_wins.
Qed.

Lemma Map_get_set_all_other (pairs : list (string * T)) map k :
  isHostMap map = true -> ~ In k (List.map fst pairs) ->
  Map_get (fold_left (fun map kv => Map_set map (fst kv) (snd kv)) pairs map) k
  = Map_get map k.
Proof.
  intros Hm Hk. destruct (Map_set_all pairs map Hm) as [Hm' Hl].
  rewrite !Map_get_lookup by assumption. rewrite Hl.
  assert (lookup k (rev pairs) = None) as ->; auto.
  apply lookup_None. now rewrite map_rev, <- in_rev.
Qed.

Lemma MapCtr_new_entries : entriesOf (MapCtr_new (T := T)) = [].
Proof. unfold MapCtr_new. now destruct usingNativeMaps. Qed.

Lemma Map_has_new k : Map_has (MapCtr_new (T := T)) k = false.
Proof.
  rewrite Map_has_defined by apply MapCtr_new_isHostMap.
  now rewrite MapCtr_new_entries.
Qed.

Lemma Map_get_new k : Map_get (MapCtr_new (T := T)) k = undefined.
Proof.
  rewrite Map_get_lookup by apply MapCtr_new_isHostMap.
  now rewrite MapCtr_new_entries.
Qed.

(** *** The size of a map *)

Lemma iterationOrder_length map :
  List.length (iterationOrder map) = List.length (entriesOf map).
Proof.
  destruct map as [m|m].
  - now rewrite iterationOrder_Native.
  - rewrite iterationOrder_Shim, length_map. unfold forIn. simpl.
    rewrite (Permutation_length (forInOrder_Permutation _)). apply length_map.
Qed.

Lemma mapSize_entries map :
  isHostMap map = true -> mapSize map = Some (List.length (entriesOf map)).
Proof.
  intros Hm. unfold mapSize. destruct usingNativeMaps eqn:En.
  - destruct map as [m|m]; auto.
    apply isHostMap_Shim in Hm as [Hm _]. congruence.
  - f_equal.
    rewrite (Map_forEach_iterationOrder map (fun _ _ size => S size)).
    rewrite <- iterationOrder_length.
    generalize (iterationOrder map) as es. intros es.
    rewrite <- (Nat.add_0_r (List.length es)). generalize 0%nat as n.
    induction es as [|e es IH]; simpl; intros n; auto.
    rewrite IH. lia.
Qed.

End SetAll.

(** X1. [createMap(pairs)] has exactly the keys of the pairs; under a key
    it holds the value of the last pair with that key; and when the keys of
    the pairs are distinct its size is the number of pairs. *)
Theorem X1_createMap_pairs
    {host : Host} {T : Type} `{HasUndefined T} (pairs : list (string * T)) (k : string) :
  let map := createMap (Some pairs) in
  (Map_has map k = true <-> In k (List.map fst pairs)) /\
  (forall before v after,
     pairs = before ++ (k, v) :: after -> ~ In k (List.map fst after) ->
     Map_get map k = v) /\
  (~ In k (List.map fst pairs) -> Map_get map k = undefined) /\
  (NoDup (List.map fst pairs) -> mapSize map = Some (List.length pairs)).
Proof.
  intros map. unfold map, createMap.
  pose proof (MapCtr_new_isHostMap (T := T)) as Hnew.
  split; [|split; [|split]].
  - rewrite Map_has_set_all by assumption. rewrite Map_has_new.
    intuition discriminate.
  - intros before v after -> Hk. now apply Map_get_set_all_last.
  - intros Hk. rewrite Map_get_set_all_other by assumption. apply Map_get_new.
  - intros Hnd. destruct (setEntries pairs _ Hnew) as [Hm He].
    rewrite mapSize_entries by assumption. f_equal. rewrite He, MapCtr_new_entries.
    now rewrite assignments_fresh.
Qed.

(** ** The basic operations and the size *)

Section BasicOperations.
Context {host : Host} {T : Type} `{HasUndefined T}.
Implicit Types (map : Map T) (k key : string) (v value : T).

Lemma Map_delete_had map k : fst (Map_delete map k) = Map_has map k.
Proof.
  destruct map as [m|m]; simpl; auto.
  unfold ShimMap_delete. now destruct (ShimMap_has m k).
Qed.

Lemma Map_has_none_entries map :
  isHostMap map = true ->
  (forall k, Map_has map k = false) <-> entriesOf map = [].
Proof.
  intros Hm. split.
  - intros Hnone. destruct (entriesOf map) as [|[k v] es] eqn:E; auto.
    specialize (Hnone k). rewrite Map_has_defined, E in Hnone by assumption.
    unfold defined in Hnone. simpl in Hnone. now rewrite String.eqb_refl in Hnone.
  - intros E k. rewrite Map_has_defined by assumption. now rewrite E.
Qed.

End BasicOperations.

(** X2. On a map of the runtime [set] and [delete] touch one key: [has] and
    [get] of every other key are as before, [delete] returns whether the key
    was there, and the key is there after [set] and gone after [delete]. *)
Theorem X2_set_and_delete_touch_one_key
    {host : Host} {T : Type} `{HasUndefined T}
    (map : Map T) (k k' : string) (v : T) :
  isHostMap map = true ->
  Map_has (Map_set map k v) k' = ((k' =? k) || Map_has map k') /\
  fst (Map_delete map k) = Map_has map k /\
  Map_has (snd (Map_delete map k)) k' = (negb (k' =? k) && Map_has map k') /\
  (k' <> k ->
   Map_get (Map_set map k v) k' = Map_get map k' /\
   Map_get (snd (Map_delete map k)) k' = Map_get map k') /\
  isHostMap (Map_set map k v) = true /\
  isHostMap (snd (Map_delete map k)) = true.
Proof.
  intros Hm. repeat split.
  - now apply Map_has_set.
  - apply Map_delete_had.
  - now apply Map_has_delete.
  - now apply Map_get_set_other.
  - now apply Map_get_delete_other.
  - now apply Map_set_isHostMap.
  - now apply Map_delete_isHostMap.
Qed.

(** X2 at the sample map of a runtime that uses the shim. *)
Lemma X2_set_and_delete_witness :
  fst (Map_delete (sampleMap es5Host) "2") = Map_has (sampleMap es5Host) "2".
Proof.
  exact (proj1 (proj2 (@X2_set_and_delete_touch_one_key es5Host Value _
                         (sampleMap es5Host) "2" "a" VNull eq_refl))).
Defined.

(** X3. After [clear] a map has no key and [get] returns [undefined] for
    every key; on a map of the runtime the size is then zero and
    [mapIsEmpty] holds. *)
Theorem X3_clear_empties
    {host : Host} {T : Type} `{HasUndefined T} (map : Map T) (k : string) :
  Map_has (Map_clear map) k = false /\
  Map_get (Map_clear map) k = undefined /\
  (isHostMap map = true ->
   mapSize (Map_clear map) = Some 0%nat /\ mapIsEmpty (Map_clear map) = Some true).
Proof.
  split; [|split].
  - destruct map; reflexivity.
  - destruct map; reflexivity.
  - intros Hm. apply Map_clear_isHostMap in Hm.
    assert (He : entriesOf (Map_clear map) = []) by (destruct map; reflexivity).
    split.
    + rewrite mapSize_entries by assumption. now rewrite He.
    + unfold mapIsEmpty. rewrite someKeyInMap_existsb by assumption.
      assert (iterationOrder (Map_clear map) = []) as ->; auto.
      apply length_zero_iff_nil. now rewrite iterationOrder_length, He.
Qed.

(** X4. [mapSize] counts the keys of a map of the runtime: setting a key
    the map has leaves the size, setting a new key adds one, deleting a key
    the map has takes one away, and the size is zero exactly when the map has
    no key. *)
Theorem X4_mapSize_counts_keys
    {host : Host} {T : Type} `{HasUndefined T} (map : Map T) (k : string) (v : T) :
  isHostMap map = true ->
  exists n,
    mapSize map = Some n /\
    mapSize (Map_set map k v) = Some (if Map_has map k then n else S n) /\
    mapSize (snd (Map_delete map k)) = Some (if Map_has map k then pred n else n) /\
    (n = 0%nat <-> forall k', Map_has map k' = false).
Proof.
  intros Hm. exists (List.length (entriesOf map)).
  split; [now apply mapSize_entries|]. split; [|split].
  - rewrite mapSize_entries by now apply Map_set_isHostMap.
    rewrite entriesOf_set, length_update. now rewrite <- Map_has_defined.
  - rewrite mapSize_entries by now apply Map_delete_isHostMap.
    rewrite entriesOf_delete by assumption.
    rewrite length_remove by now apply isHostMap_unique.
    now rewrite <- Map_has_defined.
  - rewrite Map_has_none_entries by assumption. apply length_zero_iff_nil.
Qed.

(** X4 at the sample map: four keys. *)
Lemma X4_mapSize_witness :
  exists n,
    mapSize (host := es6Host) (sampleMap es6Host) = Some n /\
    mapSize (host := es6Host) (Map_set (sampleMap es6Host) "a" VNull)
      = Some (if Map_has (sampleMap es6Host) "a" then n else S n) /\
    mapSize (host := es6Host) (snd (Map_delete (sampleMap es6Host) "a"))
      = Some (if Map_has (sampleMap es6Host) "a" then pred n else n) /\
    (n = 0%nat <-> forall k', Map_has (sampleMap es6Host) k' = false).
Proof.
  exact (@X4_mapSize_counts_keys es6Host Value _ (sampleMap es6Host) "a" VNull eq_refl).
Defined.

Example mapSize_examples :
  mapSize (host := es5Host) (sampleMap es5Host) = Some 4%nat /\
  mapSize (host := ie11Host) (sampleMap ie11Host) = Some 4%nat /\
  mapSize (host := es5Host)
    (createMap (host := es5Host) (Some [("x", VNum (Finite 1)); ("y", VNum (Finite 2)); ("x", VNum (Finite 3))]))
  = Some 2%nat.
Proof. vm_compute. repeat split; reflexivity. Qed.

(** ** Existential queries, keys and values *)

Section ExistentialQueries.
Context {host : Host} {T : Type} `{HasUndefined T}.
Implicit Types (map : Map T) (k key : string) (v value : T).

Lemma someValueInMap_existsb map (p : T -> bool) :
  isHostMap map = true ->
  someValueInMap map p = Some (existsb (fun kv => p (snd kv)) (iterationOrder map)).
Proof.
  intros Hm. unfold someValueInMap. destruct usingES6NativeMaps eqn:Es.
  - destruct (isHostMap_ES6 map Hm Es) as [m ->]. unfold asES6Map, option_map.
    rewrite someInIterator_existsb, iterationOrder_Native.
    unfold NativeMap_values. f_equal.
    induction (mapData m) as [|e es IH]; simpl; auto. now rewrite IH.
  - now rewrite someInMap_existsb.
Qed.

Lemma existsb_entries map (p : T -> string -> bool) :
  isHostMap map = true ->
  existsb (fun kv => p (snd kv) (fst kv)) (iterationOrder map) = true <->
  exists k, Map_has map k = true /\ p (Map_get map k) k = true.
Proof.
  intros Hm. rewrite existsb_exists. split.
  - intros ([k v] & Hin & Hp). apply iterationOrder_has_get in Hin as [Hk Hv]; auto.
    exists k. simpl in Hp. now rewrite Hv.
  - intros (k & Hk & Hp). exists (k, Map_get map k). split; auto.
    now apply iterationOrder_has_get.
Qed.

Lemma forEachKey_iterate_fold {S : Type} (keys : list string)
    (action : string -> S -> S) (s : S) :
  forEachKey_iterate keys action s = fold_left (fun s key => action key s) keys s.
Proof. revert s. induction keys as [|key keys IH]; simpl; intros s; auto. Qed.

Lemma forEachKeyInMap_fold {S : Type} map (action : string -> S -> S) (s : S) :
  isHostMap map = true ->
  forEachKeyInMap map action s
  = Some (fold_left (fun s key => action key s) (List.map fst (iterationOrder map)) s).
Proof.
  intros Hm. unfold forEachKeyInMap. destruct usingES6NativeMaps eqn:Es.
  - destruct (isHostMap_ES6 map Hm Es) as [m ->]. unfold asES6Map, option_map.
    now rewrite forEachKey_iterate_fold, iterationOrder_Native.
  - rewrite Map_forEach_iterationOrder. f_equal.
    now rewrite fold_left_map_pairs.
Qed.

End ExistentialQueries.

(** X5. [mapIsEmpty] is [true] exactly on a map that has no key. *)
Theorem X5_mapIsEmpty_iff_no_key
    {host : Host} {T : Type} `{HasUndefined T} (map : Map T) :
  isHostMap map = true ->
  exists b, mapIsEmpty map = Some b /\ (b = true <-> forall k, Map_has map k = false).
Proof.
  intros Hm. unfold mapIsEmpty. rewrite someKeyInMap_existsb by assumption.
  eexists. split; [reflexivity|].
  rewrite Map_has_none_entries by assumption.
  rewrite <- length_zero_iff_nil, <- iterationOrder_length, length_zero_iff_nil.
  destruct (iterationOrder map); simpl; split; congruence.
Qed.

(** X5 at the sample map. *)
Lemma X5_mapIsEmpty_witness :
  exists b,
    mapIsEmpty (host := es5Host) (sampleMap es5Host) = Some b /\
    (b = true <-> forall k, Map_has (sampleMap es5Host) k = false).
Proof.
  exact (@X5_mapIsEmpty_iff_no_key es5Host Value _ (sampleMap es5Host) eq_refl).
Defined.

(** X6. [someInMap], [someKeyInMap] and [someValueInMap] are [true] exactly
    when the predicate holds of some entry, key or value of the map, in
    both branches of each. *)
Theorem X6_some_in_map
    {host : Host} {T : Type} `{HasUndefined T} (map : Map T)
    (onEntry : T -> string -> bool) (onKey : string -> bool) (onValue : T -> bool) :
  isHostMap map = true ->
  (exists b, someInMap map onEntry = Some b /\
             (b = true <->
              exists k, Map_has map k = true /\ onEntry (Map_get map k) k = true)) /\
  (exists b, someKeyInMap map onKey = Some b /\
             (b = true <-> exists k, Map_has map k = true /\ onKey k = true)) /\
  (exists b, someValueInMap map onValue = Some b /\
             (b = true <->
              exists k, Map_has map k = true /\ onValue (Map_get map k) = true)).
Proof.
  intros Hm. split; [|split].
  - rewrite someInMap_existsb by assumption. eexists. split; [reflexivity|].
    now apply existsb_entries.
  - rewrite someKeyInMap_existsb by assumption. eexists. split; [reflexivity|].
    now apply (existsb_entries map (fun _ k => onKey k)).
  - rewrite someValueInMap_existsb by assumption. eexists. split; [reflexivity|].
    now apply (existsb_entries map (fun v _ => onValue v)).
Qed.

(** X6 at the sample map of a runtime with ES6 maps. *)
Lemma X6_some_in_map_witness :
  exists b,
    someKeyInMap (host := es6Host) (sampleMap es6Host) (String.eqb "a") = Some b /\
    (b = true <->
     exists k, Map_has (sampleMap es6Host) k = true /\ String.eqb "a" k = true).
Proof.
  exact (proj1 (proj2 (@X6_some_in_map es6Host Value _ (sampleMap es6Host)
                         (fun _ _ => false) (String.eqb "a") (fun _ => false) eq_refl))).
Defined.

(** X7. [keysOfMap] lists every key of the map once, and [valuesOfMap]
    lists the values in the same order: the value at a place is what [get]
    returns for the key at that place. *)
Theorem X7_keysOfMap_valuesOfMap
    {host : Host} {T : Type} `{HasUndefined T} (map : Map T) :
  isHostMap map = true ->
  exists keys,
    keysOfMap map = Some keys /\
    NoDup keys /\
    (forall k, In k keys <-> Map_has map k = true) /\
    valuesOfMap map = List.map (Map_get map) keys.
Proof.
  intros Hm. exists (List.map fst (iterationOrder map)). split; [|split; [|split]].
  - unfold keysOfMap. rewrite forEachKeyInMap_fold by assumption.
    rewrite (fold_left_snoc (fun key : string => key)). simpl. now rewrite map_id.
  - now apply iterationOrder_unique.
  - intros k. now apply iterationOrder_keys.
  - unfold valuesOfMap. rewrite Map_forEach_iterationOrder.
    rewrite (fold_left_snoc (fun kv : string * T => snd kv)). simpl.
    rewrite map_map. apply map_ext_in. intros [k v] Hin.
    apply iterationOrder_has_get in Hin as [_ Hv]; auto.
Qed.

(** X7 at the sample map. *)
Lemma X7_keysOfMap_witness :
  exists keys,
    keysOfMap (host := es5Host) (sampleMap es5Host) = Some keys /\
    NoDup keys /\
    (forall k, In k keys <-> Map_has (sampleMap es5Host) k = true) /\
    valuesOfMap (host := es5Host) (sampleMap es5Host)
    = List.map (Map_get (sampleMap es5Host)) keys.
Proof.
  exact (@X7_keysOfMap_valuesOfMap es5Host Value _ (sampleMap es5Host) eq_refl).
Defined.

Example keysOfMap_examples :
  keysOfMap (host := es5Host) (sampleMap es5Host) = Some ["0"; "2"; "b"; "a"] /\
  valuesOfMap (host := es5Host) (sampleMap es5Host) = [VNum (Finite 0); VNum (Finite 2); VNum (Finite 1); VNum (Finite 3)] /\
  keysOfMap (host := es6Host) (sampleMap es6Host) = Some ["b"; "2"; "a"; "0"].
Proof. vm_compute. repeat split; reflexivity. Qed.

(** ** Copies and derived maps *)

Section Copies.
Context {host : Host} {T : Type} `{HasUndefined T}.
Implicit Types (map source target : Map T) (k key : string) (v value : T).

Lemma iterationOrder_lookup_rev map k :
  isHostMap map = true ->
  lookup k (rev (iterationOrder map)) = lookup k (entriesOf map).
Proof.
  intros Hm. rewrite lookup_rev_unique by now apply iterationOrder_unique.
  apply lookup_ext_In; [now apply iterationOrder_unique|].
  intros v. now apply iterationOrder_In.
Qed.

Lemma copyMapEntriesFromTo_set_all source target :
  copyMapEntriesFromTo source target
  = fold_left (fun map kv => Map_set map (fst kv) (snd kv)) (iterationOrder source) target.
Proof.
  unfold copyMapEntriesFromTo.
  now rewrite (Map_forEach_iterationOrder source (fun value key target => Map_set target key value)).
Qed.

Lemma copyMapEntriesFromTo_lookup source target k :
  isHostMap source = true -> isHostMap target = true ->
  isHostMap (copyMapEntriesFromTo source target) = true /\
  lookup k (entriesOf (copyMapEntriesFromTo source target))
  = match lookup k (entriesOf source) with
    | Some v => Some v
    | None => lookup k (entriesOf target)
    end.
Proof.
  intros Hs Ht. rewrite copyMapEntriesFromTo_set_all.
  destruct (Map_set_all (iterationOrder source) target Ht) as [Hm Hl].
  split; auto. now rewrite Hl, iterationOrder_lookup_rev.
Qed.

Lemma isHostMap_Native_eq map :
  isHostMap map = true -> usingNativeMaps = true ->
  map = Native {| mapData := entriesOf map |}.
Proof.
  intros Hm Hn. destruct map as [[es]|m]; auto.
  apply isHostMap_Shim in Hm as [Hm _]. congruence.
Qed.

End Copies.

(** X8. [copyMapEntriesFromTo(source, target)] leaves in [target] the
    entries of [source] and those entries of [target] whose key [source]
    does not have.  [cloneMap(map)] has the keys and values of [map]; with
    the host's maps it also has them in the same order. *)
Theorem X8_copyMapEntriesFromTo_cloneMap
    {host : Host} {T : Type} `{HasUndefined T} (source target : Map T) (k : string) :
  isHostMap source = true -> isHostMap target = true ->
  Map_has (copyMapEntriesFromTo source target) k = (Map_has source k || Map_has target k) /\
  Map_get (copyMapEntriesFromTo source target) k
    = (if Map_has source k then Map_get source k else Map_get target k) /\
  Map_has (cloneMap source) k = Map_has source k /\
  Map_get (cloneMap source) k = Map_get source k /\
  (usingNativeMaps = true -> cloneMap source = source).
Proof.
  intros Hs Ht.
  assert (Hcopy : forall t : Map T, isHostMap t = true ->
            Map_has (copyMapEntriesFromTo source t) k = (Map_has source k || Map_has t k) /\
            Map_get (copyMapEntriesFromTo source t) k
              = (if Map_has source k then Map_get source k else Map_get t k)).
  { intros t Hht. destruct (copyMapEntriesFromTo_lookup source t k Hs Hht) as [Hm Hl].
    rewrite !Map_has_defined, !Map_get_lookup by assumption.
    unfold defined. rewrite Hl. now destruct (lookup k (entriesOf source)). }
  destruct (Hcopy target Ht) as [Hh Hg].
  destruct (Hcopy (createMap None) (createMap_isHostMap None)) as [Hch Hcg].
  assert (Hnone : Map_has (createMap (T := T) None) k = false) by apply Map_has_new.
  assert (Hundef : Map_get (createMap (T := T) None) k = undefined) by apply Map_get_new.
  repeat split; auto.
  - unfold cloneMap. rewrite Hch, Hnone. apply orb_false_r.
  - unfold cloneMap. rewrite Hcg, Hundef.
    destruct (Map_has source k) eqn:E; auto.
    symmetry. now apply Map_get_absent.
  - intros Hn.
    destruct (copyMapEntriesFromTo_lookup source (createMap None) k Hs
                (createMap_isHostMap None)) as [Hclone _].
    fold (cloneMap source) in Hclone.
    transitivity (Native {| mapData := entriesOf (cloneMap source) |});
      [now apply isHostMap_Native_eq|].
    transitivity (Native {| mapData := entriesOf source |});
      [|symmetry; now apply isHostMap_Native_eq].
    do 2 f_equal. unfold cloneMap. rewrite copyMapEntriesFromTo_set_all.
    destruct (setEntries (iterationOrder source) (createMap None) (createMap_isHostMap None))
      as [_ ->].
    unfold createMap. rewrite MapCtr_new_entries.
    rewrite assignments_fresh by (simpl; now apply iterationOrder_unique).
    simpl. destruct source as [m|m]; [apply iterationOrder_Native|].
    apply isHostMap_Shim in Hs as [Hs _]. congruence.
Qed.

(** X8 at the sample map, copied into a map that shares the key ["a"]. *)
Lemma X8_copyMapEntriesFromTo_witness :
  Map_get
    (copyMapEntriesFromTo (host := es5Host) (sampleMap es5Host)
       (createMap (host := es5Host) (Some [("a", VNull); ("z", VNum (Finite 9))])))
    "a"
  = (if Map_has (sampleMap es5Host) "a" then Map_get (sampleMap es5Host) "a"
     else Map_get (createMap (host := es5Host) (Some [("a", VNull); ("z", VNum (Finite 9))])) "a").
Proof.
  exact (proj1 (proj2 (@X8_copyMapEntriesFromTo_cloneMap es5Host Value _
                         (sampleMap es5Host)
                         (createMap (host := es5Host) (Some [("a", VNull); ("z", VNum (Finite 9))]))
                         "a" eq_refl eq_refl))).
Defined.

Example cloneMap_examples :
  cloneMap (host := es6Host) (sampleMap es6Host) = sampleMap es6Host /\
  cloneMap (host := es5Host) (sampleMap es5Host)
  = createMap (host := es5Host)
      (Some [("0", VNum (Finite 0)); ("2", VNum (Finite 2)); ("b", VNum (Finite 1)); ("a", VNum (Finite 3))]).
Proof. vm_compute. split; reflexivity. Qed.

(** X9. [transformKeys(map, getNewKey)] has exactly the new keys of the keys
    of [map], and under each of them the value of a key of [map] with that
    new key: of the one [forEach] visits last, when several keys share the
    new key, so a key whose new key no other key shares keeps its value
    under the new key. *)
Theorem X9_transformKeys
    {host : Host} {T : Type} `{HasUndefined T}
    (map : Map T) (getNewKey : string -> string) :
  isHostMap map = true ->
  isHostMap (transformKeys map getNewKey) = true /\
  (forall k', Map_has (transformKeys map getNewKey) k' = true <->
              exists k, Map_has map k = true /\ getNewKey k = k') /\
  (forall k,
     Map_has map k = true ->
     (forall k2, Map_has map k2 = true -> getNewKey k2 = getNewKey k -> k2 = k) ->
     Map_get (transformKeys map getNewKey) (getNewKey k) = Map_get map k) /\
  (forall k', Map_has (transformKeys map getNewKey) k' = true ->
              exists k, Map_has map k = true /\ getNewKey k = k' /\
                        Map_get (transformKeys map getNewKey) k' = Map_get map k) /\
  (forall before k after,
     List.map fst (iterationOrder map) = before ++ k :: after ->
     (forall k2, In k2 after -> getNewKey k2 <> getNewKey k) ->
     Map_get (transformKeys map getNewKey) (getNewKey k) = Map_get map k).
Proof.
  intros Hm.
  set (pairs := List.map (fun kv : string * T => (getNewKey (fst kv), snd kv))
                         (iterationOrder map)).
  assert (Ht : transformKeys map getNewKey
               = fold_left (fun m kv => Map_set m (fst kv) (snd kv)) pairs (createMap None)).
  { unfold transformKeys, pairs.
    rewrite (Map_forEach_iterationOrder map
               (fun value key newMap => Map_set newMap (getNewKey key) value)).
    now rewrite fold_left_map_pairs. }
  pose proof (createMap_isHostMap (T := T) None) as Hnew.
  destruct (Map_set_all pairs (createMap None) Hnew) as [Hm' Hl].
  assert (Hin : forall k' v, In (k', v) pairs <->
            exists k, Map_has map k = true /\ Map_get map k = v /\ getNewKey k = k').
  { intros k' v. unfold pairs. rewrite in_map_iff. split.
    - intros ([k v0] & [= <- <-] & Hkv).
      apply iterationOrder_has_get in Hkv as [Hk Hv]; auto. exists k. auto.
    - intros (k & Hk & Hv & Hk'). exists (k, v). split; [simpl; congruence|].
      now apply iterationOrder_has_get. }
  assert (Hhas : forall k', Map_has (transformKeys map getNewKey) k' = true <->
                            In k' (List.map fst pairs)).
  { intros k'. rewrite Ht, Map_has_set_all by assumption.
    unfold createMap. rewrite Map_has_new. intuition discriminate. }
  split; [now rewrite Ht|]. split; [|split; [|split]].
  - intros k'. rewrite Hhas. split.
    + intros Hk.
      apply in_map_iff in Hk as ([k2 v] & <- & Hkv).
      apply Hin in Hkv as (k & Hk & _ & Hk'). exists k. auto.
    + intros (k & Hk & Hk').
      apply in_map_iff. exists (k', Map_get map k). split; auto.
      apply Hin. exists k. auto.
  - intros k Hk Hinj. rewrite Ht, Map_get_lookup by assumption. rewrite Hl.
    destruct (lookup (getNewKey k) (rev pairs)) as [v|] eqn:E.
    + apply lookup_In, in_rev, Hin in E as (k2 & Hk2 & Hv & Hsame).
      rewrite (Hinj k2 Hk2 Hsame) in Hv. auto.
    + apply lookup_None in E. elim E. rewrite map_rev, <- in_rev.
      apply in_map_iff. exists (getNewKey k, Map_get map k). split; auto.
      apply Hin. exists k. auto.
  - intros k' Hk'. apply Hhas in Hk'.
    rewrite Ht, Map_get_lookup by assumption. rewrite Hl.
    destruct (lookup k' (rev pairs)) as [v|] eqn:E.
    + apply lookup_In, in_rev, Hin in E as (k & Hk & Hv & Hsame).
      exists k. auto.
    + apply lookup_None in E. elim E. now rewrite map_rev, <- in_rev.
  - intros before k after Hkeys Hlast.
    apply map_eq_app in Hkeys as (entriesBefore & rest & Hes & <- & Hrest).
    apply map_eq_cons in Hrest as ([k0 v] & entriesAfter & -> & Hk0 & <-).
    simpl in Hk0. subst k0.
    assert (Hv : Map_get map k = v).
    { apply (iterationOrder_has_get map k v Hm). rewrite Hes. apply in_elt. }
    rewrite Ht. unfold pairs. rewrite Hes, map_app. cbn [List.map fst snd].
    rewrite Map_get_set_all_last; auto.
    rewrite map_map. cbn [fst]. intros Hk.
    apply in_map_iff in Hk as ([k2 v2] & Hsame & Hk2). cbn [fst] in Hsame.
    apply (Hlast k2); auto. apply in_map_iff. now exists (k2, v2).
Qed.

(** X9 at the sample map, every key prefixed. *)
Lemma X9_transformKeys_witness :
  isHostMap (host := es5Host)
    (transformKeys (host := es5Host) (sampleMap es5Host) (fun k => String.append "m_" k)) = true.
Proof.
  exact (proj1 (@X9_transformKeys es5Host Value _ (sampleMap es5Host)
                  (fun k => String.append "m_" k) eq_refl)).
Defined.

(** When every key gets the same new key, the value that is left is that
    of the key [forEach] visits last: the last one set in a runtime with
    native maps, the last one of the [for-in] order with the shim. *)
Example transformKeys_collision :
  transformKeys (host := es6Host) (sampleMap es6Host) (fun _ => "same")
  = createMap (host := es6Host) (Some [("same", VNum (Finite 0))]) /\
  List.map fst (iterationOrder (host := es6Host) (sampleMap es6Host))
  = ["b"; "2"; "a"; "0"] /\
  transformKeys (host := es5Host) (sampleMap es5Host) (fun _ => "same")
  = createMap (host := es5Host) (Some [("same", VNum (Finite 3))]) /\
  List.map fst (iterationOrder (host := es5Host) (sampleMap es5Host))
  = ["0"; "2"; "b"; "a"].
Proof. vm_compute. repeat split; reflexivity. Qed.

(** X10. [modifyValue(map, key, f)] stores [f] of the value [get] returned
    under [key], of [undefined] when the map did not have the key, and
    leaves the other keys as they were. *)
Theorem X10_modifyValue
    {host : Host} {T : Type} `{HasUndefined T}
    (map : Map T) (k k' : string) (getNewValue : T -> T) :
  isHostMap map = true ->
  Map_get (modifyValue map k getNewValue) k = getNewValue (Map_get map k) /\
  Map_has (modifyValue map k getNewValue) k = true /\
  (Map_has map k = false ->
   Map_get (modifyValue map k getNewValue) k = getNewValue undefined) /\
  (k' <> k ->
   Map_get (modifyValue map k getNewValue) k' = Map_get map k' /\
   Map_has (modifyValue map k getNewValue) k' = Map_has map k').
Proof.
  intros Hm. unfold modifyValue.
  split; [now apply Map_get_set_same |].
  split; [rewrite Map_has_set by assumption; now rewrite String.eqb_refl |].
  split.
  - intros Hk. rewrite Map_get_set_same by assumption.
    now rewrite (Map_get_absent _ _ Hm Hk).
  - intros Hne. split.
    + now apply Map_get_set_other.
    + rewrite Map_has_set by assumption.
      apply String.eqb_neq in Hne. now rewrite Hne.
Qed.

(** X10 at the sample map. *)
Lemma X10_modifyValue_witness :
  Map_get (modifyValue (sampleMap es5Host) "zz" (fun v => VStr "new")) "zz"
  = (fun v : Value => VStr "new") (Map_get (sampleMap es5Host) "zz").
Proof.
  exact (proj1 (@X10_modifyValue es5Host Value _ (sampleMap es5Host) "zz" "a"
                  (fun v => VStr "new") eq_refl)).
Defined.

(** X11. [setIfNotSet(map, key, value)] returns whether the map did not have
    the key; it never replaces what a key holds, a key that holds
    [undefined] included; afterwards the map has the key, and the other
    keys are as they were. *)
Theorem X11_setIfNotSet
    {host : Host} {T : Type} `{HasUndefined T}
    (map : Map T) (k k' : string) (v : T) :
  isHostMap map = true ->
  fst (setIfNotSet map k v) = negb (Map_has map k) /\
  (Map_has map k = true -> snd (setIfNotSet map k v) = map) /\
  (Map_has map k = false -> Map_get (snd (setIfNotSet map k v)) k = v) /\
  Map_has (snd (setIfNotSet map k v)) k = true /\
  (k' <> k ->
   Map_get (snd (setIfNotSet map k v)) k' = Map_get map k' /\
   Map_has (snd (setIfNotSet map k v)) k' = Map_has map k') /\
  (let stored := Map_set map k undefined in
   setIfNotSet stored k v = (false, stored)).
Proof.
  intros Hm.
  split; [unfold setIfNotSet; now destruct (Map_has map k)|].
  split; [unfold setIfNotSet; now intros ->|].
  split; [unfold setIfNotSet; intros ->; simpl; now apply Map_get_set_same|].
  split.
  { unfold setIfNotSet. destruct (Map_has map k) eqn:E; simpl; auto.
    rewrite Map_has_set by assumption. now rewrite String.eqb_refl. }
  split.
  { intros Hne. unfold setIfNotSet. destruct (Map_has map k); simpl; auto.
    rewrite Map_get_set_other, Map_has_set by assumption.
    apply String.eqb_neq in Hne. now rewrite Hne. }
  intros stored. unfold stored, setIfNotSet.
  rewrite Map_has_set by assumption. now rewrite String.eqb_refl.
Qed.

(** X11 at the sample map and a key it has. *)
Lemma X11_setIfNotSet_witness :
  snd (setIfNotSet (sampleMap es6Host) "a" VNull) = sampleMap es6Host.
Proof.
  exact (proj1 (proj2 (@X11_setIfNotSet es6Host Value _ (sampleMap es6Host) "a" "b" VNull
                         eq_refl)) eq_refl).
Defined.

(** X12. [arrayToMap(array, makeKey, makeValue)] has exactly the keys of the
    elements; under a key it holds what the last element with that key
    gives: [makeValue] of it, or the element itself without [makeValue]. *)
Theorem X12_arrayToMap_last_wins
    {host : Host} (array : list Value) (makeKey : Value -> string)
    (makeValue : option (Value -> Value)) (k : string) :
  let stored := fun x => match makeValue with Some f => f x | None => x end in
  let map := arrayToMap array makeKey makeValue in
  (Map_has map k = true <-> exists x, In x array /\ makeKey x = k) /\
  (forall before x after,
     array = before ++ x :: after -> makeKey x = k ->
     (forall y, In y after -> makeKey y <> k) ->
     Map_get map k = stored x) /\
  ((forall x, In x array -> makeKey x <> k) -> Map_get map k = VUndefined).
Proof.
  intros stored map.
  set (pairs := List.map (fun x => (makeKey x, stored x)) array).
  assert (Hmap : map = fold_left (fun m kv => Map_set m (fst kv) (snd kv)) pairs
                         (createMap None)).
  { unfold map, arrayToMap, pairs. now rewrite fold_left_map_pairs. }
  pose proof (createMap_isHostMap (T := Value) None) as Hnew.
  assert (Hkeys : forall l, In k (List.map fst (List.map (fun x => (makeKey x, stored x)) l))
                            <-> exists x, In x l /\ makeKey x = k).
  { intros l. rewrite map_map. simpl. rewrite in_map_iff. firstorder. }
  rewrite Hmap. split; [|split].
  - rewrite Map_has_set_all by assumption. unfold createMap. rewrite Map_has_new.
    unfold pairs. rewrite Hkeys. intuition discriminate.
  - intros before x after -> Hx Hafter. unfold pairs.
    rewrite map_app. simpl. rewrite Hx.
    apply Map_get_set_all_last; auto.
    rewrite Hkeys. intros (y & Hy & Hyk). now apply (Hafter y).
  - intros Hnone. rewrite Map_get_set_all_other; auto.
    + unfold createMap. exact (Map_get_new (T := Value) k).
    + unfold pairs. rewrite Hkeys. intros (y & Hy & Hyk). now apply (Hnone y).
Qed.

Example arrayToMap_examples :
  let m := arrayToMap (host := es5Host) [VStr "a"; VStr "bb"; VStr "a"]
             (fun x => match x with VStr s => s | _ => "" end)
             (Some (fun x => VObj 7)) in
  Map_get m "a" = VObj 7 /\ Map_has m "bb" = true /\ Map_has m "c" = false /\
  mapSize (host := es5Host) m = Some 2%nat.
Proof. vm_compute. repeat split; reflexivity. Qed.

(** ** [mapsAreEqual] is symmetric *)

(** [===] is symmetric, also where it is not reflexive. *)
Lemma strictEq_symmetric {T : Type} `{HasUndefined T} {SE : StrictEq T} (a b : T) :
  strictEq a b = strictEq b a.
Proof.
  destruct (strictEq a b) eqn:E1, (strictEq b a) eqn:E2; auto.
  - apply strictEq_eq in E1 as E. subst. congruence.
  - apply strictEq_eq in E2 as E. subst. congruence.
Qed.

(** X13. With a symmetric comparer, or with the default [===],
    [mapsAreEqual(a, b)] and [mapsAreEqual(b, a)] agree, whatever the
    arguments are ([null] and [undefined] included), when the store holds
    maps of the runtime. *)
Theorem X13_mapsAreEqual_symmetric
    {host : Host} {T : Type} `{HasUndefined T} {SE : StrictEq T}
    (heap : Heap (Map T)) (a b : Handle) (valuesAreEqual : option (T -> T -> bool)) :
  (forall r, isHostMap (heap r) = true) ->
  (forall x y, equalWith valuesAreEqual x y = equalWith valuesAreEqual y x) ->
  mapsAreEqual heap a b valuesAreEqual = mapsAreEqual heap b a valuesAreEqual.
Proof.
  intros Hheap Hsym.
  destruct a as [| |l], b as [| |r]; try reflexivity.
  destruct (Nat.eq_dec l r) as [->|Hne]; [reflexivity|].
  destruct (mapsAreEqual_distinct valuesAreEqual heap (Hheap l) (Hheap r) Hne)
    as (b1 & -> & Hb1).
  assert (Hne' : r <> l) by congruence.
  destruct (mapsAreEqual_distinct valuesAreEqual heap (Hheap r) (Hheap l) Hne')
    as (b2 & -> & Hb2).
  f_equal. apply Bool.eq_iff_eq_true. rewrite Hb1, Hb2.
  unfold sameKeys, sameValues. split; intros [Hk Hv]; split.
  - intros k. now rewrite Hk.
  - intros k Hr Hl. rewrite Hsym. now apply Hv.
  - intros k. now rewrite Hk.
  - intros k Hl Hr. rewrite Hsym. now apply Hv.
Qed.

(** X13 at two maps with the default comparison. *)
Lemma X13_mapsAreEqual_witness :
  mapsAreEqual (host := es6Host) (twoObjects (sampleMap es6Host) (reordered es6Host))
    (HRef 0) (HRef 1) None
  = mapsAreEqual (host := es6Host) (twoObjects (sampleMap es6Host) (reordered es6Host))
    (HRef 1) (HRef 0) None.
Proof.
  refine (@X13_mapsAreEqual_symmetric es6Host Value _ _
            (twoObjects (sampleMap es6Host) (reordered es6Host)) (HRef 0) (HRef 1) None _ _).
  - intros [|r]; reflexivity.
  - intros x y. exact (strictEq_symmetric x y).
Defined.

(** ** Sets *)

Lemma existsb_eqb_In (x : string) (l : list string) :
  existsb (String.eqb x) l = true <-> In x l.
Proof.
  rewrite existsb_exists. split.
  - intros (y & Hy & E). apply String.eqb_eq in E. now subst.
  - intros Hx. exists x. split; auto. apply String.eqb_refl.
Qed.

Lemma distinct_NoDup (l : list string) : distinct l = true <-> NoDup l.
Proof.
  induction l as [|x l IH]; simpl.
  - split; auto using NoDup_nil.
  - rewrite andb_true_iff, negb_true_iff, NoDup_cons_iff, IH, <- existsb_eqb_In.
    destruct (existsb (String.eqb x) l); intuition congruence.
Qed.

Section SetFacts.
Context {host : Host}.
Implicit Types (set source target : StringSet) (v w value : string).

Lemma Set_forEach_elements {S : Type} set (action : string -> S -> S) (s : S) :
  Set_forEach set action s = fold_left (fun s value => action value s) (setElements set) s.
Proof. destruct set; reflexivity. Qed.

Lemma isHostSet_Shim (this : ShimStringSet) :
  isHostSet (ShimSet this) = true ->
  usingNativeSets = false /\ proto (setData this) = None /\
  uniqueKeys (props (setData this)) = true.
Proof.
  simpl. intros Hs. apply andb_true_iff in Hs as [Hs Hu].
  apply andb_true_iff in Hs as [Hn Hp]. apply negb_true_iff in Hn.
  repeat split; auto. now destruct (proto (setData this)).
Qed.

Lemma ShimStringSet_has_defined (this : ShimStringSet) v :
  proto (setData this) = None ->
  ShimStringSet_has this v = defined v (props (setData this)).
Proof.
  intros Hp. unfold ShimStringSet_has, has_in, inherits, hasOwnProperty.
  rewrite Hp. apply orb_false_r.
Qed.

Lemma Set_has_elements set v :
  isHostSet set = true -> Set_has set v = true <-> In v (setElements set).
Proof.
  intros Hs. destruct set as [elements|this]; simpl.
  - apply existsb_eqb_In.
  - apply isHostSet_Shim in Hs as (_ & Hp & _).
    rewrite ShimStringSet_has_defined by assumption.
    rewrite defined_In. symmetry. apply forIn_In.
Qed.

Lemma setElements_NoDup set : isHostSet set = true -> NoDup (setElements set).
Proof.
  intros Hs. destruct set as [elements|this]; simpl.
  - simpl in Hs. apply andb_true_iff in Hs as [_ Hd]. now apply distinct_NoDup.
  - apply isHostSet_Shim in Hs as (_ & _ & Hu). unfold forIn.
    eapply Permutation_NoDup; [apply Permutation_sym, forInOrder_Permutation|].
    now apply uniqueKeys_NoDup.
Qed.

Lemma createSet_isHostSet : isHostSet createSet = true.
Proof.
  unfold createSet, isHostSet. destruct usingNativeSets eqn:E; simpl; now rewrite ?E.
Qed.

Lemma Set_has_createSet v : Set_has createSet v = false.
Proof. unfold createSet. now destruct usingNativeSets. Qed.

Lemma Set_add_isHostSet set v :
  isHostSet set = true -> isHostSet (Set_add set v) = true.
Proof.
  destruct set as [elements|this]; simpl; intros Hs.
  - apply andb_true_iff in Hs as [Hn Hd].
    destruct (existsb (String.eqb v) elements) eqn:E; simpl; rewrite Hn; simpl; auto.
    apply distinct_NoDup. apply distinct_NoDup in Hd.
    apply NoDup_app; auto.
    + repeat constructor. intros [].
    + intros x Hx [<-|[]]. apply existsb_eqb_In in Hx. congruence.
  - apply andb_true_iff in Hs as [-> Hu]. simpl. now apply uniqueKeys_update.
Qed.

Lemma Set_has_add set v w :
  isHostSet set = true ->
  Set_has (Set_add set v) w = ((w =? v) || Set_has set w).
Proof.
  intros Hs. destruct set as [elements|this]; simpl.
  - destruct (existsb (String.eqb v) elements) eqn:E; simpl.
    + destruct (w =? v) eqn:Ew; auto. apply String.eqb_eq in Ew. now subst.
    + rewrite existsb_app. simpl. rewrite orb_false_r. apply orb_comm.
  - apply isHostSet_Shim in Hs as (_ & Hp & _).
    rewrite !ShimStringSet_has_defined by assumption.
    simpl. apply defined_update.
Qed.

Lemma Set_add_all (values : list string) target w :
  isHostSet target = true ->
  isHostSet (fold_left (fun t value => Set_add t value) values target) = true /\
  Set_has (fold_left (fun t value => Set_add t value) values target) w
  = (existsb (String.eqb w) values || Set_has target w).
Proof.
  revert target. induction values as [|x values IH]; simpl; intros target Ht; auto.
  destruct (IH (Set_add target x) (Set_add_isHostSet target x Ht)) as [Hs ->].
  split; auto. rewrite Set_has_add by assumption.
  now rewrite orb_assoc, (orb_comm (existsb _ _)).
Qed.

Lemma copySetValuesFromTo_has source target w :
  isHostSet source = true -> isHostSet target = true ->
  isHostSet (copySetValuesFromTo source target) = true /\
  Set_has (copySetValuesFromTo source target) w = (Set_has source w || Set_has target w).
Proof.
  intros Hs Ht. unfold copySetValuesFromTo.
  rewrite (Set_forEach_elements source (fun value target => Set_add target value)).
  destruct (Set_add_all (setElements source) target w Ht) as [Hh ->].
  split; auto. f_equal. apply Bool.eq_iff_eq_true.
  rewrite existsb_eqb_In. symmetry. now apply Set_has_elements.
Qed.

End SetFacts.

(** X14. On a set of the runtime: after [add(v)] the set has [v] and what it
    had; [delete(v)] returns whether [v] was there and removes [v] alone;
    after [clear] it has nothing; and [setIsEmpty] is [true] exactly when
    the set has no element. *)
Theorem X14_set_operations
    {host : Host} (set : StringSet) (v w : string) :
  isHostSet set = true ->
  Set_has (Set_add set v) w = ((w =? v) || Set_has set w) /\
  fst (Set_delete set v) = Set_has set v /\
  Set_has (snd (Set_delete set v)) w = (negb (w =? v) && Set_has set w) /\
  Set_has (Set_clear set) w = false /\
  (exists b, setIsEmpty set = Some b /\ (b = true <-> forall x, Set_has set x = false)).
Proof.
  intros Hs. split; [now apply Set_has_add|].
  destruct set as [elements|this].
  - simpl in Hs. apply andb_true_iff in Hs as [Hn Hd].
    split; [reflexivity|]. split; [|split; [reflexivity|]].
    + simpl. clear. induction elements as [|x l IH]; simpl.
      * now rewrite andb_false_r.
      * destruct (v =? x) eqn:E; simpl.
        -- apply String.eqb_eq in E. subst x. rewrite IH.
           destruct (w =? v); simpl; auto.
        -- rewrite IH. destruct (w =? x) eqn:Ew; simpl.
           ++ apply String.eqb_eq in Ew. subst x.
              rewrite String.eqb_sym in E. now rewrite E.
           ++ reflexivity.
    + unfold setIsEmpty. rewrite Hn. eexists. split; [reflexivity|].
      destruct elements as [|x l]; simpl.
      * split; auto.
      * split; [discriminate|]. intros Hnone. specialize (Hnone x).
        simpl in Hnone. now rewrite String.eqb_refl in Hnone.
  - pose proof (isHostSet_Shim this Hs) as (Hn & Hp & Hu).
    assert (Hdel : proto (setData (snd (ShimStringSet_delete this v))) = None).
    { unfold ShimStringSet_delete. now destruct (ShimStringSet_has this v). }
    split; [|split; [|split; [reflexivity|]]].
    + simpl. unfold ShimStringSet_delete. now destruct (ShimStringSet_has this v).
    + simpl. destruct (ShimStringSet_delete this v) as [had this'] eqn:E. simpl in *.
      rewrite !ShimStringSet_has_defined by assumption.
      unfold ShimStringSet_delete in E.
      rewrite ShimStringSet_has_defined in E by assumption.
      destruct (defined v (props (setData this))) eqn:Ev; injection E as <- <-; simpl.
      * apply defined_remove.
      * destruct (w =? v) eqn:Ew; simpl; auto.
        apply String.eqb_eq in Ew. now subst.
    + unfold setIsEmpty. rewrite Hn. eexists. split; [reflexivity|].
      unfold ShimStringSet_isEmpty. split.
      * intros Hb x. destruct (Set_has (ShimSet this) x) eqn:Ex; auto.
        apply Set_has_elements in Ex; auto. simpl in Ex.
        destruct (forIn (setData this)); [destruct Ex | discriminate].
      * intros Hnone. destruct (forIn (setData this)) as [|x l] eqn:E; auto.
        specialize (Hnone x).
        assert (Set_has (ShimSet this) x = true).
        { apply Set_has_elements; auto. simpl. rewrite E. now left. }
        congruence.
Qed.

(** X14 at a set of two elements in a runtime that uses the shim. *)
Lemma X14_set_operations_witness :
  fst (Set_delete (Set_add (Set_add (createSet (host := es5Host)) "a") "b") "a")
  = Set_has (Set_add (Set_add (createSet (host := es5Host)) "a") "b") "a".
Proof.
  exact (proj1 (proj2 (@X14_set_operations es5Host
                         (Set_add (Set_add (createSet (host := es5Host)) "a") "b")
                         "a" "b" eq_refl))).
Defined.

(** X15. [setAggregate(array, getSet)] is the union of the sets of the
    elements: it has a value exactly when the set of some element has it. *)
Theorem X15_setAggregate_union
    {host : Host} {A : Type} (array : list A) (getSet : A -> StringSet) (v : string) :
  (forall x, In x array -> isHostSet (getSet x) = true) ->
  isHostSet (setAggregate array getSet) = true /\
  Set_has (setAggregate array getSet) v = existsb (fun x => Set_has (getSet x) v) array.
Proof.
  intros Hsets. unfold setAggregate.
  assert (Hgen : forall result, isHostSet result = true ->
            isHostSet (fold_left (fun result value =>
                         copySetValuesFromTo (getSet value) result) array result) = true /\
            Set_has (fold_left (fun result value =>
                       copySetValuesFromTo (getSet value) result) array result) v
            = (existsb (fun x => Set_has (getSet x) v) array || Set_has result v)).
  { induction array as [|x array IH]; simpl; intros result Hr; auto.
    destruct (copySetValuesFromTo_has (getSet x) result v) as [Hc Hv]; auto.
    { apply Hsets. now left. }
    destruct (IH (fun y Hy => Hsets y (or_intror Hy)) _ Hc) as [Hi ->].
    split; auto. rewrite Hv.
    now rewrite orb_assoc, (orb_comm (existsb _ _)). }
  destruct (Hgen createSet createSet_isHostSet) as [Hi ->].
  split; auto. rewrite Set_has_createSet. apply orb_false_r.
Qed.

(** X15 at two sets that share an element. *)
Lemma X15_setAggregate_witness :
  Set_has
    (setAggregate (host := es5Host) [["a"; "b"]; ["b"; "c"]]
       (fun l => fold_left Set_add l (createSet (host := es5Host))))
    "c"
  = existsb
      (fun l => Set_has (fold_left Set_add l (createSet (host := es5Host))) "c")
      [["a"; "b"]; ["b"; "c"]].
Proof.
  refine (proj2 (@X15_setAggregate_union es5Host (list string) [["a"; "b"]; ["b"; "c"]]
                   (fun l => fold_left Set_add l (createSet (host := es5Host))) "c" _)).
  intros x [<-|[<-|[]]]; reflexivity.
Defined.

Lemma filter_fold {A : Type} (p : A -> bool) (l acc : list A) :
  fold_left (fun result value => if p value then result ++ [value] else result) l acc
  = acc ++ filter p l.
Proof.
  revert acc. induction l as [|x l IH]; simpl; intros acc.
  - now rewrite app_nil_r.
  - rewrite IH. destruct (p x); auto. now rewrite <- app_assoc.
Qed.

(** X16. [filterSetToArray(set, predicate)] lists, without repetition, the
    elements of the set for which the predicate holds. *)
Theorem X16_filterSetToArray
    {host : Host} (set : StringSet) (predicate : string -> bool) :
  isHostSet set = true ->
  NoDup (filterSetToArray set predicate) /\
  forall v, In v (filterSetToArray set predicate)
            <-> Set_has set v = true /\ predicate v = true.
Proof.
  intros Hs.
  assert (Hf : filterSetToArray set predicate = filter predicate (setElements set)).
  { unfold filterSetToArray. rewrite Set_forEach_elements.
    exact (filter_fold predicate (setElements set) []). }
  rewrite Hf. split.
  - apply NoDup_filter. now apply setElements_NoDup.
  - intros v. rewrite filter_In. now rewrite Set_has_elements.
Qed.

(** X16 at a set of three elements. *)
Lemma X16_filterSetToArray_witness :
  NoDup (filterSetToArray (host := es6Host)
           (fold_left Set_add ["b"; "2"; "a"] (createSet (host := es6Host)))
           (fun v => negb (v =? "2"))).
Proof.
  exact (proj1 (@X16_filterSetToArray es6Host
                  (fold_left Set_add ["b"; "2"; "a"] (createSet (host := es6Host)))
                  (fun v => negb (v =? "2")) eq_refl)).
Defined.

Example set_examples :
  let s := fold_left Set_add ["b"; "2"; "a"; "b"] (createSet (host := es5Host)) in
  filterSetToArray (host := es5Host) s (fun v => negb (v =? "a")) = ["2"; "b"] /\
  setIsEmpty (host := es5Host) s = Some false /\
  setIsEmpty (host := es5Host) (Set_clear s) = Some true /\
  setIsEmpty (host := es6Host) (createSet (host := es6Host)) = Some true.
Proof. vm_compute. repeat split; reflexivity. Qed.

(** ** Records *)

Section RecordFacts.
Context {host : Host} {T : Type} `{HasUndefined T}.
Implicit Types (o : MapLike T) (k key : string) (v : T).







End RecordFacts.


Example own_properties_examples :
  let o := literal [("b", VNum (Finite 1)); ("2", VNum (Finite 2)); ("toString", VNull)] in
  getOwnKeys (host := es6Host) o = ["2"; "b"; "toString"] /\
  getProperty o "valueOf" = VUndefined /\
  getProp o "valueOf" = VObj 7 /\
  getProperty o "toString" = VNull /\
  getOwnKeys (host := es6Host) (literal []) = [] /\
  reduceOwnProperties (host := es6Host) o (fun n _ _ => S n) 0%nat = 3%nat.
Proof. vm_compute. repeat split; reflexivity. Qed.


Example equalOwnProperties_examples :
  let f := VObj 6 in
  equalOwnProperties (host := es6Host)
    (twoObjects (literal [("toString", f)]) (literal [])) (HRef 0) (HRef 1) None = true /\
  equalOwnProperties (host := es6Host)
    (twoObjects (literal [("a", VNum (Finite 1)); ("b", VNum (Finite 2))])
                (literal [("b", VNum (Finite 2)); ("a", VNum (Finite 1))])) (HRef 0) (HRef 1) None = true /\
  equalOwnProperties (host := es6Host)
    (twoObjects (literal [("a", VNum (Finite 1))]) (literal [("a", VNum (Finite 2))]))
    (HRef 0) (HRef 1) (Some (fun _ _ => true)) = true /\
  equalOwnProperties (host := es6Host)
    (twoObjects (setProp createDictionaryModeObject "k" (VNum NaN))
                (setProp createDictionaryModeObject "k" (VNum NaN)))
    (HRef 0) (HRef 1) None = false.
Proof. vm_compute. repeat split; reflexivity. Qed.


Example mapOfMapLike_literal :
  let m := mapOfMapLike (host := es5Host) (literal [("b", VNum (Finite 1)); ("2", VNum (Finite 2))]) in
  Map_has m "toString" = false /\ Map_get m "b" = VNum (Finite 1) /\
  keysOfMap (host := es5Host) m = Some ["2"; "b"].
Proof. vm_compute. repeat split; reflexivity. Qed.

(** ** More on multi-maps *)

Section MultiMapCalls.
Context {host : Host} {V : Type} `{ItemEq V}.
Implicit Types (arrays : Arrays V) (map : Map (option Ref)) (key : string) (value : V).

Lemma multiMapAdd_Some arrays map key value values :
  Map_get map key = Some values ->
  multiMapAdd arrays map key value = (values, (Array_push arrays values value, map)).
Proof. intros Hg. unfold multiMapAdd. now rewrite Hg. Qed.

Lemma multiMapAdd_None arrays map key value :
  Map_get map key = None ->
  multiMapAdd arrays map key value
  = (nextArray arrays,
     (snd (newArray arrays [value]), Map_set map key (Some (nextArray arrays)))).
Proof. intros Hg. unfold multiMapAdd. now rewrite Hg. Qed.

Lemma multiMapRemove_Some arrays map key value values :
  Map_get map key = Some values ->
  multiMapRemove arrays map key value
  = (setArray arrays values (unorderedRemoveItem (arrayAt arrays values) value),
     if (List.length (unorderedRemoveItem (arrayAt arrays values) value) =? 0)%nat
     then snd (Map_delete map key) else map).
Proof.
  intros Hg. unfold multiMapRemove. rewrite Hg.
  rewrite arrayAt_setArray, Nat.eqb_refl.
  now destruct (List.length (unorderedRemoveItem (arrayAt arrays values) value) =? 0)%nat.
Qed.

Lemma multiMapRemove_None arrays map key value :
  Map_get map key = None -> multiMapRemove arrays map key value = (arrays, map).
Proof. intros Hg. unfold multiMapRemove. now rewrite Hg. Qed.

Lemma Map_get_array_has map key values :
  isHostMap map = true -> Map_get map key = Some values -> Map_has map key = true.
Proof.
  intros Hm Hg. destruct (Map_has map key) eqn:Hk; auto.
  rewrite (Map_get_absent _ _ Hm Hk) in Hg. discriminate.
Qed.

End MultiMapCalls.

(** X20. [multiMapAdd(map, key, value)] returns the array the map then holds
    under [key]: a new array with [value] alone when [get(key)] is
    [undefined], and otherwise the array the key held, with [value] added at
    its end and the map left as it was.  [multiMapRemove] changes the array
    under [key] in place and deletes the key when the array is left empty;
    it changes nothing when [get(key)] is [undefined].  Neither of them
    changes another array or what another key refers to, so another key
    sees a change exactly when it holds the same array. *)
Theorem X20_multiMapAdd_appends
    {host : Host} {V : Type} `{ItemEq V}
    (arrays : Arrays V) (map : Map (option Ref)) (k : string) (v : V) :
  isHostMap map = true ->
  let before :=
    match arrayUnder arrays map k with Some elements => elements | None => [] end in
  let values := fst (multiMapAdd arrays map k v) in
  let arrays1 := fst (snd (multiMapAdd arrays map k v)) in
  let map1 := snd (snd (multiMapAdd arrays map k v)) in
  let arrays2 := fst (multiMapRemove arrays map k v) in
  let map2 := snd (multiMapRemove arrays map k v) in
  (Map_get map1 k = Some values /\
   arrayAt arrays1 values = before ++ [v] /\
   (Map_get map k = None -> values = nextArray arrays) /\
   (forall r, Map_get map k = Some r -> values = r /\ map1 = map) /\
   (forall r, r <> values -> arrayAt arrays1 r = arrayAt arrays r) /\
   (forall k', k' <> k ->
      Map_get map1 k' = Map_get map k' /\ Map_has map1 k' = Map_has map k') /\
   (forall k' r, Map_get map k = Some r -> Map_get map k' = Some r ->
      arrayUnder arrays1 map1 k' = Some (before ++ [v])))
  /\
  ((Map_get map k = None -> arrays2 = arrays /\ map2 = map) /\
   (forall r, Map_get map k = Some r ->
      arrayAt arrays2 r = unorderedRemoveItem (arrayAt arrays r) v /\
      Map_has map2 k = negb (List.length (arrayAt arrays2 r) =? 0)%nat) /\
   (forall r, Map_get map k <> Some r -> arrayAt arrays2 r = arrayAt arrays r) /\
   (forall k', k' <> k ->
      Map_get map2 k' = Map_get map k' /\ Map_has map2 k' = Map_has map k')).
Proof.
  intros Hm before values arrays1 map1 arrays2 map2.
  subst before values arrays1 map1 arrays2 map2. unfold arrayUnder.
  destruct (Map_get map k) as [r|] eqn:Eg.
  - rewrite (multiMapAdd_Some arrays map k v Eg).
    rewrite (multiMapRemove_Some arrays map k v Eg).
    cbn [fst snd option_map]. unfold Array_push. split.
    + split; [assumption|]. split; [now rewrite arrayAt_setArray, Nat.eqb_refl|].
      split; [discriminate|]. split; [now intros r' [= <-]|].
      split; [|split].
      * intros r' Hne. rewrite arrayAt_setArray.
        apply Nat.eqb_neq in Hne. now rewrite Hne.
      * auto.
      * intros k' r' [= <-] ->. cbn [option_map].
        now rewrite arrayAt_setArray, Nat.eqb_refl.
    + split; [discriminate|]. split; [|split].
      * intros r' [= <-]. rewrite arrayAt_setArray, Nat.eqb_refl. split; auto.
        destruct (List.length (unorderedRemoveItem (arrayAt arrays r) v) =? 0)%nat.
        -- rewrite Map_has_delete by assumption. now rewrite String.eqb_refl.
        -- now apply (Map_get_array_has map k Hm Eg).
      * intros r' Hne. rewrite arrayAt_setArray.
        destruct (Nat.eqb_spec r' r) as [->|_]; auto. now destruct Hne.
      * intros k' Hne.
        destruct (List.length (unorderedRemoveItem (arrayAt arrays r) v) =? 0)%nat; auto.
        rewrite Map_get_delete_other, Map_has_delete by assumption.
        apply String.eqb_neq in Hne. now rewrite Hne.
  - rewrite (multiMapAdd_None arrays map k v Eg).
    rewrite (multiMapRemove_None arrays map k v Eg).
    cbn [fst snd option_map newArray arrayAt]. split.
    + split; [now apply Map_get_set_same|]. split; [now rewrite Nat.eqb_refl|].
      split; [reflexivity|]. split; [discriminate|]. split; [|split].
      * intros r Hne. apply Nat.eqb_neq in Hne. now rewrite Hne.
      * intros k' Hne. rewrite Map_get_set_other, Map_has_set by assumption.
        apply String.eqb_neq in Hne. now rewrite Hne.
      * discriminate.
    + split; [auto|]. split; [discriminate|]. split; auto.
Qed.

(** X20 on a multi-map in which two keys hold the same array: what is added
    under one key is seen under the other. *)
Lemma X20_multiMapAdd_witness :
  arrayUnder
    (fst (snd (multiMapAdd (fst (sharedArrays es5Host)) (snd (sharedArrays es5Host)) "a" (VNum (Finite 2)))))
    (snd (snd (multiMapAdd (fst (sharedArrays es5Host)) (snd (sharedArrays es5Host)) "a" (VNum (Finite 2)))))
    "b"
  = Some [VNum (Finite 1); VNum (Finite 2)].
Proof.
  exact (proj2 (proj2 (proj2 (proj2 (proj2 (proj2 (proj1
           (@X20_multiMapAdd_appends es5Host Value _
              (fst (sharedArrays es5Host)) (snd (sharedArrays es5Host)) "a" (VNum (Finite 2)) eq_refl)))))))
           "b" 0%nat eq_refl eq_refl).
Defined.

(** With a shared array a key can be left holding an empty array: removing
    through ["a"] empties the array that ["b"] holds too, and only ["a"] is
    deleted. *)
Example multiMap_shared_array :
  let s1 := multiMapCall (sharedArrays es5Host) (CallAdd "a" (VNum (Finite 2))) in
  let s2 := multiMapCall s1 (CallRemove "a" (VNum (Finite 1))) in
  let s3 := multiMapCall s2 (CallRemove "a" (VNum (Finite 2))) in
  arrayUnder (fst s1) (snd s1) "b" = Some [VNum (Finite 1); VNum (Finite 2)] /\
  Map_has (snd s3) "a" = false /\
  Map_has (snd s3) "b" = true /\
  arrayUnder (fst s3) (snd s3) "b" = Some [].
Proof. vm_compute. repeat split; reflexivity. Qed.

(** ** More on [sortInV8ObjectInsertionOrder] *)



Section SortedInput.
Context {A : Type}.
Variable comparefn : A -> A -> Number.
Variable rank : A -> Z.
Variable P : A -> Prop.
Hypothesis comparefn_rank :
  forall a b, P a -> P b -> comesAfter comparefn a b = (rank b <? rank a)%Z.


End SortedInput.


(** ** [updateMapValues] *)

Section UpdateMapValuesFacts.
Context {host : Host} {T : Type} `{HasUndefined T}.
Variable getNewValue : T -> T.

Lemma update_values_loop (keys : list string) (current : Map T) :
  NoDup keys -> isHostMap current = true ->
  let result :=
    fold_left
      (fun current key => Map_set current key (getNewValue (Map_get current key)))
      keys current in
  isHostMap result = true /\
  forall k,
    (In k keys -> Map_has result k = true /\
                  Map_get result k = getNewValue (Map_get current k)) /\
    (~ In k keys -> Map_has result k = Map_has current k /\
                    Map_get result k = Map_get current k).
Proof.
  revert current. induction keys as [|x keys IH]; simpl; intros current Hnd Hc.
  - split; auto. intros k. split; [intros []|auto].
  - apply NoDup_cons_iff in Hnd as [Hx Hnd].
    assert (Hc' : isHostMap (Map_set current x (getNewValue (Map_get current x))) = true)
      by now apply Map_set_isHostMap.
    destruct (IH _ Hnd Hc') as [Hr Hk]. split; auto.
    intros k. destruct (Hk k) as [Hin Hout]. split.
    + intros [<-|Hin'].
      * destruct (Hout Hx) as [Hh Hg]. rewrite Hh, Hg.
        rewrite Map_has_set, Map_get_set_same by assumption.
        now rewrite String.eqb_refl.
      * destruct (Hin Hin') as [Hh Hg]. split; auto. rewrite Hg. f_equal.
        apply Map_get_set_other; auto. intros ->. contradiction.
    + intros Hnot.
      assert (Hne : k <> x) by (intros ->; apply Hnot; now left).
      assert (Hnot' : ~ In k keys) by (intros Hin'; apply Hnot; now right).
      destruct (Hout Hnot') as [Hh Hg]. rewrite Hh, Hg.
      rewrite Map_has_set, Map_get_set_other by assumption.
      apply String.eqb_neq in Hne. now rewrite Hne.
Qed.

End UpdateMapValuesFacts.

(** X22. [updateMapValues(map, f)] replaces the value of every key by [f] of
    it, once, and neither adds nor removes a key. *)
Theorem X22_updateMapValues
    {host : Host} {T : Type} `{HasUndefined T}
    (map : Map T) (getNewValue : T -> T) (k : string) :
  isHostMap map = true ->
  isHostMap (updateMapValues map getNewValue) = true /\
  Map_has (updateMapValues map getNewValue) k = Map_has map k /\
  Map_get (updateMapValues map getNewValue) k
    = (if Map_has map k then getNewValue (Map_get map k) else undefined).
Proof.
  intros Hm. unfold updateMapValues, Map_forEach_assigning.
  assert (Hnd : NoDup (List.map fst (iterationOrder map)))
    by now apply iterationOrder_unique.
  destruct (@update_values_loop host T H getNewValue _ map Hnd Hm) as [Hr Hk].
  split; auto. destruct (Hk k) as [Hin Hout].
  destruct (Map_has map k) eqn:E.
  - apply iterationOrder_keys in E; [now apply Hin | assumption].
  - assert (Hnot : ~ In k (List.map fst (iterationOrder map))).
    { intros Hin'. apply iterationOrder_keys in Hin'; auto. congruence. }
    destruct (Hout Hnot) as [Hh Hg]. rewrite Hh, Hg. split; auto.
    now apply Map_get_absent.
Qed.

(** X22 at the sample map. *)
Lemma X22_updateMapValues_witness :
  Map_has (updateMapValues (host := es5Host) (sampleMap es5Host) (fun _ => VNull)) "a"
  = Map_has (sampleMap es5Host) "a".
Proof.
  exact (proj1 (proj2 (@X22_updateMapValues es5Host Value _ (sampleMap es5Host)
                         (fun _ => VNull) "a" eq_refl))).
Defined.

Example updateMapValues_example :
  updateMapValues (host := es5Host) (sampleMap es5Host)
    (fun v => match v with VNum (Finite n) => VNum (Finite (n + 10)) | _ => v end)
  = createMap (host := es5Host)
      (Some [("b", VNum (Finite 11)); ("2", VNum (Finite 12)); ("a", VNum (Finite 13)); ("0", VNum (Finite 10))]).
Proof. vm_compute. reflexivity. Qed.

(** ** [clone], [extend] and [assign] *)

Section CopyingRecords.
Context {host : Host}.
Implicit Types (o r source : Object Value) (k key : string).











End CopyingRecords.







Example clone_extend_assign_examples :
  clone (host := es6Host) (literal [("b", VNum (Finite 1)); ("2", VNum (Finite 2))])
  = Some (literal [("2", VNum (Finite 2)); ("b", VNum (Finite 1))]) /\
  extend (host := es6Host) (literal [("a", VNum (Finite 1))]) (literal [("a", VNum (Finite 2)); ("b", VNum (Finite 3))])
  = Some (literal [("a", VNum (Finite 1)); ("b", VNum (Finite 3))]) /\
  assign_args (host := es6Host) (literal [("a", VNum (Finite 0))])
    [literal [("a", VNum (Finite 1))]; literal [("a", VNum (Finite 2)); ("b", VNum (Finite 3))]]
  = Some (literal [("a", VNum (Finite 2)); ("b", VNum (Finite 3))]) /\
  clone (host := es6Host)
    (setProp (createDictionaryModeObject (T := Value)) "__proto__" (VNum (Finite 1))) = None.
Proof. vm_compute. repeat split; reflexivity. Qed.
